(** * Vulkan utility layer of the GS renderer (pcsx2/GS/Renderers/Vulkan/VKUtil.cpp)

    A shallow embedding of the helper functions of [namespace Vulkan]:
    the [SafeDestroy*] teardown helpers, [BufferMemoryBarrier],
    [AddPointerToChain] and [VkResultToString], with the properties the
    design document states about them.

    Conventions.
    - Vulkan handles, flags and sizes are integers ([Z]); the null handle and
      the null pointer are [0].
    - A call of a Vulkan entry point (or of a method of the global
      [g_vulkan_context]) is recorded, with its arguments, at the end of the
      trace of the device world; functions that perform such calls run in the
      state monad [Dev] over that world.
    - A reference parameter ([VkFramebuffer& fb]) is an argument and a result:
      the function receives the value of the slot and returns its new value.
    - Structures reached through pointers live in a heap, a finite map from
      addresses to structures. *)

From Stdlib Require Import ZArith Ascii String List Lia DecimalString.
From stdpp Require Import base decidable option list gmap strings.

Local Open Scope Z_scope.

(** ** Handles and constants of the Vulkan API *)

Definition VK_NULL_HANDLE : Z := 0.
Definition nullptr : Z := 0.

Definition VkDevice := Z.
Definition VkCommandBuffer := Z.
Definition VkFramebuffer := Z.
Definition VkShaderModule := Z.
Definition VkPipeline := Z.
Definition VkPipelineLayout := Z.
Definition VkDescriptorSetLayout := Z.
Definition VkBufferView := Z.
Definition VkImageView := Z.
Definition VkSampler := Z.
Definition VkSemaphore := Z.
Definition VkDescriptorSet := Z.
Definition VkBuffer := Z.

Definition VkAccessFlags := Z.
Definition VkPipelineStageFlags := Z.
Definition VkDependencyFlags := Z.
Definition VkDeviceSize := Z.
Definition VkStructureType := Z.

(** [~0U] and [~0ULL]. *)
Definition VK_QUEUE_FAMILY_IGNORED : Z := 2 ^ 32 - 1.
Definition VK_WHOLE_SIZE : VkDeviceSize := 2 ^ 64 - 1.
Definition VK_STRUCTURE_TYPE_BUFFER_MEMORY_BARRIER : VkStructureType := 44.

(** ** Barrier descriptor *)

Record VkBufferMemoryBarrier := {
  bmb_sType : VkStructureType;
  bmb_pNext : Z;
  bmb_srcAccessMask : VkAccessFlags;
  bmb_dstAccessMask : VkAccessFlags;
  bmb_srcQueueFamilyIndex : Z;
  bmb_dstQueueFamilyIndex : Z;
  bmb_buffer : VkBuffer;
  bmb_offset : VkDeviceSize;
  bmb_size : VkDeviceSize
}.

(** ** The device world: the calls issued so far *)

(** The entry points the file calls.  Each constructor carries the arguments
    of the call in the order of the C prototype; the memory and image barrier
    arrays of [vkCmdPipelineBarrier], which the file always passes as
    [0, nullptr], are left out of its record.

    [FreeGlobalDescriptorSet] is a method of [VKContext], whose definition is
    not among the sources (the design document describes it as the
    descriptor-set-free operation of the device context, bound to the owning
    pool).  Its call is recorded as it is made, not interpreted. *)
Inductive Call :=
| vkDestroyFramebuffer (device : VkDevice) (framebuffer : VkFramebuffer) (pAllocator : Z)
| vkDestroyShaderModule (device : VkDevice) (shaderModule : VkShaderModule) (pAllocator : Z)
| vkDestroyPipeline (device : VkDevice) (pipeline : VkPipeline) (pAllocator : Z)
| vkDestroyPipelineLayout (device : VkDevice) (pipelineLayout : VkPipelineLayout) (pAllocator : Z)
| vkDestroyDescriptorSetLayout (device : VkDevice) (descriptorSetLayout : VkDescriptorSetLayout) (pAllocator : Z)
| vkDestroyBufferView (device : VkDevice) (bufferView : VkBufferView) (pAllocator : Z)
| vkDestroyImageView (device : VkDevice) (imageView : VkImageView) (pAllocator : Z)
| vkDestroySampler (device : VkDevice) (sampler : VkSampler) (pAllocator : Z)
| vkDestroySemaphore (device : VkDevice) (semaphore : VkSemaphore) (pAllocator : Z)
| FreeGlobalDescriptorSet (set : VkDescriptorSet)
| vkCmdPipelineBarrier (commandBuffer : VkCommandBuffer)
    (srcStageMask dstStageMask : VkPipelineStageFlags)
    (dependencyFlags : VkDependencyFlags)
    (pBufferMemoryBarriers : list VkBufferMemoryBarrier).

(** [g_vulkan_context] and what has been asked of the device through it. *)
Record World := {
  m_device : VkDevice;
  trace : list Call
}.

(** ** The monad of device calls *)

Definition Dev (A : Type) : Type := World -> A * World.

Definition ret {A} (a : A) : Dev A := fun w => (a, w).

Definition bind {A B} (c : Dev A) (k : A -> Dev B) : Dev B :=
  fun w => let (a, w') := c w in k a w'.

Notation "x <- c ;; k" := (bind c (fun x => k))
  (at level 100, c at next level, right associativity).
Notation "c ;;; k" := (bind c (fun _ => k))
  (at level 100, right associativity).

(** [g_vulkan_context->GetDevice()] *)
Definition GetDevice : Dev VkDevice := fun w => (m_device w, w).

(** Issue one call. *)
Definition call (c : Call) : Dev unit :=
  fun w => (tt, {| m_device := m_device w; trace := trace w ++ [c] |}).

(** ** Teardown helpers *)

Definition SafeDestroyFramebuffer (fb : VkFramebuffer) : Dev VkFramebuffer :=
  if negb (fb =? VK_NULL_HANDLE) then
    dev <- GetDevice ;;
    call (vkDestroyFramebuffer dev fb nullptr) ;;;
    ret VK_NULL_HANDLE
  else ret fb.

Definition SafeDestroyShaderModule (sm : VkShaderModule) : Dev VkShaderModule :=
  if negb (sm =? VK_NULL_HANDLE) then
    dev <- GetDevice ;;
    call (vkDestroyShaderModule dev sm nullptr) ;;;
    ret VK_NULL_HANDLE
  else ret sm.

Definition SafeDestroyPipeline (p : VkPipeline) : Dev VkPipeline :=
  if negb (p =? VK_NULL_HANDLE) then
    dev <- GetDevice ;;
    call (vkDestroyPipeline dev p nullptr) ;;;
    ret VK_NULL_HANDLE
  else ret p.

Definition SafeDestroyPipelineLayout (pl : VkPipelineLayout) : Dev VkPipelineLayout :=
  if negb (pl =? VK_NULL_HANDLE) then
    dev <- GetDevice ;;
    call (vkDestroyPipelineLayout dev pl nullptr) ;;;
    ret VK_NULL_HANDLE
  else ret pl.

Definition SafeDestroyDescriptorSetLayout (dsl : VkDescriptorSetLayout) : Dev VkDescriptorSetLayout :=
  if negb (dsl =? VK_NULL_HANDLE) then
    dev <- GetDevice ;;
    call (vkDestroyDescriptorSetLayout dev dsl nullptr) ;;;
    ret VK_NULL_HANDLE
  else ret dsl.

Definition SafeDestroyBufferView (bv : VkBufferView) : Dev VkBufferView :=
  if negb (bv =? VK_NULL_HANDLE) then
    dev <- GetDevice ;;
    call (vkDestroyBufferView dev bv nullptr) ;;;
    ret VK_NULL_HANDLE
  else ret bv.

Definition SafeDestroyImageView (iv : VkImageView) : Dev VkImageView :=
  if negb (iv =? VK_NULL_HANDLE) then
    dev <- GetDevice ;;
    call (vkDestroyImageView dev iv nullptr) ;;;
    ret VK_NULL_HANDLE
  else ret iv.

Definition SafeDestroySampler (samp : VkSampler) : Dev VkSampler :=
  if negb (samp =? VK_NULL_HANDLE) then
    dev <- GetDevice ;;
    call (vkDestroySampler dev samp nullptr) ;;;
    ret VK_NULL_HANDLE
  else ret samp.

Definition SafeDestroySemaphore (sem : VkSemaphore) : Dev VkSemaphore :=
  if negb (sem =? VK_NULL_HANDLE) then
    dev <- GetDevice ;;
    call (vkDestroySemaphore dev sem nullptr) ;;;
    ret VK_NULL_HANDLE
  else ret sem.

Definition SafeFreeGlobalDescriptorSet (ds : VkDescriptorSet) : Dev VkDescriptorSet :=
  if negb (ds =? VK_NULL_HANDLE) then
    call (FreeGlobalDescriptorSet ds) ;;;
    ret VK_NULL_HANDLE
  else ret ds.

(** The object categories of the teardown helpers, one per function above. *)
Inductive Category :=
| Framebuffer | ShaderModule | Pipeline | PipelineLayout | DescriptorSetLayout
| BufferView | ImageView | Sampler | Semaphore | GlobalDescriptorSet.

(** [Release c] is the teardown helper of category [c]. *)
Definition Release (c : Category) : Z -> Dev Z :=
  match c with
  | Framebuffer => SafeDestroyFramebuffer
  | ShaderModule => SafeDestroyShaderModule
  | Pipeline => SafeDestroyPipeline
  | PipelineLayout => SafeDestroyPipelineLayout
  | DescriptorSetLayout => SafeDestroyDescriptorSetLayout
  | BufferView => SafeDestroyBufferView
  | ImageView => SafeDestroyImageView
  | Sampler => SafeDestroySampler
  | Semaphore => SafeDestroySemaphore
  | GlobalDescriptorSet => SafeFreeGlobalDescriptorSet
  end.

(** Reading a recorded call: is it one of the [vkDestroy*] entry points, which
    category of object and which handle it disposes of, on which device, with
    which allocator. *)
Definition is_native_destroy (c : Call) : bool :=
  match c with
  | vkDestroyFramebuffer _ _ _ | vkDestroyShaderModule _ _ _
  | vkDestroyPipeline _ _ _ | vkDestroyPipelineLayout _ _ _
  | vkDestroyDescriptorSetLayout _ _ _ | vkDestroyBufferView _ _ _
  | vkDestroyImageView _ _ _ | vkDestroySampler _ _ _
  | vkDestroySemaphore _ _ _ => true
  | FreeGlobalDescriptorSet _ | vkCmdPipelineBarrier _ _ _ _ _ => false
  end.

Definition is_pool_free (c : Call) : bool :=
  match c with
  | FreeGlobalDescriptorSet _ => true
  | _ => false
  end.

Definition disposes (c : Call) : option (Category * Z) :=
  match c with
  | vkDestroyFramebuffer _ h _ => Some (Framebuffer, h)
  | vkDestroyShaderModule _ h _ => Some (ShaderModule, h)
  | vkDestroyPipeline _ h _ => Some (Pipeline, h)
  | vkDestroyPipelineLayout _ h _ => Some (PipelineLayout, h)
  | vkDestroyDescriptorSetLayout _ h _ => Some (DescriptorSetLayout, h)
  | vkDestroyBufferView _ h _ => Some (BufferView, h)
  | vkDestroyImageView _ h _ => Some (ImageView, h)
  | vkDestroySampler _ h _ => Some (Sampler, h)
  | vkDestroySemaphore _ h _ => Some (Semaphore, h)
  | FreeGlobalDescriptorSet h => Some (GlobalDescriptorSet, h)
  | vkCmdPipelineBarrier _ _ _ _ _ => None
  end.

Definition call_device (c : Call) : option VkDevice :=
  match c with
  | vkDestroyFramebuffer d _ _ | vkDestroyShaderModule d _ _
  | vkDestroyPipeline d _ _ | vkDestroyPipelineLayout d _ _
  | vkDestroyDescriptorSetLayout d _ _ | vkDestroyBufferView d _ _
  | vkDestroyImageView d _ _ | vkDestroySampler d _ _
  | vkDestroySemaphore d _ _ => Some d
  | FreeGlobalDescriptorSet _ | vkCmdPipelineBarrier _ _ _ _ _ => None
  end.

(** The number of [vkDestroy*] calls, and of pool frees, in a trace. *)
Definition destroy_calls (t : list Call) : nat :=
  length (List.filter is_native_destroy t).

Definition pool_frees (t : list Call) : nat :=
  length (List.filter is_pool_free t).

(** The one category whose objects go back to a pool. *)
Definition pooled (c : Category) : bool :=
  match c with
  | GlobalDescriptorSet => true
  | _ => false
  end.

(** The world after some more calls. *)
Definition after (w : World) (new : list Call) : World :=
  {| m_device := m_device w; trace := trace w ++ new |}.

(** Two teardown calls in succession on the same slot. *)
Definition ReleaseTwice (c : Category) (slot : Z) : Dev Z :=
  slot' <- Release c slot ;;
  Release c slot'.

(** ** Buffer barrier *)

(** The local [buffer_info] of [BufferMemoryBarrier]. *)
Definition buffer_info (buffer : VkBuffer) (src_access_mask dst_access_mask : VkAccessFlags)
    (offset size : VkDeviceSize) : VkBufferMemoryBarrier :=
  {| bmb_sType := VK_STRUCTURE_TYPE_BUFFER_MEMORY_BARRIER;
     bmb_pNext := nullptr;
     bmb_srcAccessMask := src_access_mask;
     bmb_dstAccessMask := dst_access_mask;
     bmb_srcQueueFamilyIndex := VK_QUEUE_FAMILY_IGNORED;
     bmb_dstQueueFamilyIndex := VK_QUEUE_FAMILY_IGNORED;
     bmb_buffer := buffer;
     bmb_offset := offset;
     bmb_size := size |}.

Definition BufferMemoryBarrier (command_buffer : VkCommandBuffer) (buffer : VkBuffer)
    (src_access_mask dst_access_mask : VkAccessFlags) (offset size : VkDeviceSize)
    (src_stage_mask dst_stage_mask : VkPipelineStageFlags) : Dev unit :=
  call (vkCmdPipelineBarrier command_buffer src_stage_mask dst_stage_mask 0
          [buffer_info buffer src_access_mask dst_access_mask offset size]).

(** ** Structure chains *)

(** A structure in memory, seen through [VkBaseInStructure*]: the type tag,
    the link to the next structure, and the members of the concrete structure
    that follow this header, which [AddPointerToChain] never looks at. *)
Record VkBaseInStructure := {
  sType : VkStructureType;
  pNext : Z;
  members : list Z
}.

Definition set_pNext (st : VkBaseInStructure) (p : Z) : VkBaseInStructure :=
  {| sType := sType st; pNext := p; members := members st |}.

(** Reading through a pointer: no structure lives at [nullptr], nor at an
    address the heap does not hold. *)
Definition deref (m : gmap Z VkBaseInStructure) (p : Z) : option VkBaseInStructure :=
  if decide (p = nullptr) then None else m !! p.

(** How a call ends: it returns, leaving the heap [m]; it reads through a
    pointer that holds no structure; or the loop has not ended within the
    iterations allowed. *)
Inductive outcome :=
| Done (m : gmap Z VkBaseInStructure)
| Fault
| OutOfFuel.

(** [AddPointerToChain(head, ptr)], the argument [last_st] being the loop
    variable, which starts at [head].  Each iteration of the [while] loop uses
    one unit of [fuel]. *)
Fixpoint AddPointerToChain (fuel : nat) (m : gmap Z VkBaseInStructure)
    (last_st ptr : Z) : outcome :=
  match deref m last_st with
  | None => Fault
  | Some st =>
      if decide (pNext st = nullptr) then
        Done (<[last_st := set_pNext st ptr]> m)
      else
        match fuel with
        | O => OutOfFuel
        | S fuel' =>
            if decide (pNext st = ptr) then Done m
            else AddPointerToChain fuel' m (pNext st) ptr
        end
  end.

(** The structures linked after [a], in the order in which following [pNext]
    reaches them, down to the structure whose [pNext] is null.  A derivation
    is finite, so a chain that has one ends. *)
Inductive chain_from (m : gmap Z VkBaseInStructure) : Z -> list Z -> Prop :=
| chain_end a st :
    deref m a = Some st -> pNext st = nullptr -> chain_from m a []
| chain_step a st l :
    deref m a = Some st -> pNext st <> nullptr ->
    chain_from m (pNext st) l -> chain_from m a (pNext st :: l).

(** The walk a consumer of the chain does: follow [pNext] from [a] until it
    is null, collecting the structures met. *)
Fixpoint chain_nodes (fuel : nat) (m : gmap Z VkBaseInStructure) (a : Z) : option (list Z) :=
  match deref m a with
  | None => None
  | Some st =>
      if decide (pNext st = nullptr) then Some []
      else
        match fuel with
        | O => None
        | S fuel' =>
            match chain_nodes fuel' m (pNext st) with
            | Some l => Some (pNext st :: l)
            | None => None
            end
        end
  end.

(** The last structure of the chain of [head]: [head] itself when nothing is
    linked yet. *)
Fixpoint chain_tail (head : Z) (l : list Z) : Z :=
  match l with
  | [] => head
  | b :: l' => chain_tail b l'
  end.

(** Several structures linked one after the other onto the same head. *)
Fixpoint link_in_order (fuel : nat) (m : gmap Z VkBaseInStructure) (head : Z)
    (ps : list Z) : outcome :=
  match ps with
  | [] => Done m
  | p :: ps' =>
      match AddPointerToChain fuel m head p with
      | Done m' => link_in_order fuel m' head ps'
      | o => o
      end
  end.

(** A small heap for examples: a head structure at address 16 and two
    extension structures at 32 and 48, none of them linked; the heap with the
    first extension linked; and a heap holding one structure alone, before and
    after that structure is linked onto itself. *)
Definition unlinked (t : VkStructureType) : VkBaseInStructure :=
  {| sType := t; pNext := nullptr; members := [] |}.

Definition three_structs : gmap Z VkBaseInStructure :=
  <[16 := unlinked 3]> (<[32 := unlinked 1000]> (<[48 := unlinked 1001]> ∅)).

Definition one_linked : gmap Z VkBaseInStructure :=
  <[16 := set_pNext (unlinked 3) 32]> three_structs.

Definition lone_struct : gmap Z VkBaseInStructure := <[16 := unlinked 3]> ∅.

Definition self_linked : gmap Z VkBaseInStructure :=
  <[16 := set_pNext (unlinked 3) 16]> ∅.

(** ** Result codes *)

Definition VkResult := Z.

(** The enumerators of [VkResult] that the file names, with their values in
    the Vulkan headers. *)
Definition VK_SUCCESS : VkResult := 0.
Definition VK_NOT_READY : VkResult := 1.
Definition VK_TIMEOUT : VkResult := 2.
Definition VK_EVENT_SET : VkResult := 3.
Definition VK_EVENT_RESET : VkResult := 4.
Definition VK_INCOMPLETE : VkResult := 5.
Definition VK_ERROR_OUT_OF_HOST_MEMORY : VkResult := -1.
Definition VK_ERROR_OUT_OF_DEVICE_MEMORY : VkResult := -2.
Definition VK_ERROR_INITIALIZATION_FAILED : VkResult := -3.
Definition VK_ERROR_DEVICE_LOST : VkResult := -4.
Definition VK_ERROR_MEMORY_MAP_FAILED : VkResult := -5.
Definition VK_ERROR_LAYER_NOT_PRESENT : VkResult := -6.
Definition VK_ERROR_EXTENSION_NOT_PRESENT : VkResult := -7.
Definition VK_ERROR_FEATURE_NOT_PRESENT : VkResult := -8.
Definition VK_ERROR_INCOMPATIBLE_DRIVER : VkResult := -9.
Definition VK_ERROR_TOO_MANY_OBJECTS : VkResult := -10.
Definition VK_ERROR_FORMAT_NOT_SUPPORTED : VkResult := -11.
Definition VK_ERROR_SURFACE_LOST_KHR : VkResult := -1000000000.
Definition VK_ERROR_NATIVE_WINDOW_IN_USE_KHR : VkResult := -1000000001.
Definition VK_SUBOPTIMAL_KHR : VkResult := 1000001003.
Definition VK_ERROR_OUT_OF_DATE_KHR : VkResult := -1000001004.
Definition VK_ERROR_INCOMPATIBLE_DISPLAY_KHR : VkResult := -1000003001.
Definition VK_ERROR_VALIDATION_FAILED_EXT : VkResult := -1000011001.
Definition VK_ERROR_INVALID_SHADER_NV : VkResult := -1000012000.

Local Open Scope string_scope.

(** The [switch] of [VkResultToString], its cases in the order of the file. *)
Definition VkResultToString (res : VkResult) : string :=
  if (res =? VK_SUCCESS)%Z then "VK_SUCCESS"
  else if (res =? VK_NOT_READY)%Z then "VK_NOT_READY"
  else if (res =? VK_TIMEOUT)%Z then "VK_TIMEOUT"
  else if (res =? VK_EVENT_SET)%Z then "VK_EVENT_SET"
  else if (res =? VK_EVENT_RESET)%Z then "VK_EVENT_RESET"
  else if (res =? VK_INCOMPLETE)%Z then "VK_INCOMPLETE"
  else if (res =? VK_ERROR_OUT_OF_HOST_MEMORY)%Z then "VK_ERROR_OUT_OF_HOST_MEMORY"
  else if (res =? VK_ERROR_OUT_OF_DEVICE_MEMORY)%Z then "VK_ERROR_OUT_OF_DEVICE_MEMORY"
  else if (res =? VK_ERROR_INITIALIZATION_FAILED)%Z then "VK_ERROR_INITIALIZATION_FAILED"
  else if (res =? VK_ERROR_DEVICE_LOST)%Z then "VK_ERROR_DEVICE_LOST"
  else if (res =? VK_ERROR_MEMORY_MAP_FAILED)%Z then "VK_ERROR_MEMORY_MAP_FAILED"
  else if (res =? VK_ERROR_LAYER_NOT_PRESENT)%Z then "VK_ERROR_LAYER_NOT_PRESENT"
  else if (res =? VK_ERROR_EXTENSION_NOT_PRESENT)%Z then "VK_ERROR_EXTENSION_NOT_PRESENT"
  else if (res =? VK_ERROR_FEATURE_NOT_PRESENT)%Z then "VK_ERROR_FEATURE_NOT_PRESENT"
  else if (res =? VK_ERROR_INCOMPATIBLE_DRIVER)%Z then "VK_ERROR_INCOMPATIBLE_DRIVER"
  else if (res =? VK_ERROR_TOO_MANY_OBJECTS)%Z then "VK_ERROR_TOO_MANY_OBJECTS"
  else if (res =? VK_ERROR_FORMAT_NOT_SUPPORTED)%Z then "VK_ERROR_FORMAT_NOT_SUPPORTED"
  else if (res =? VK_ERROR_SURFACE_LOST_KHR)%Z then "VK_ERROR_SURFACE_LOST_KHR"
  else if (res =? VK_ERROR_NATIVE_WINDOW_IN_USE_KHR)%Z then "VK_ERROR_NATIVE_WINDOW_IN_USE_KHR"
  else if (res =? VK_SUBOPTIMAL_KHR)%Z then "VK_SUBOPTIMAL_KHR"
  else if (res =? VK_ERROR_OUT_OF_DATE_KHR)%Z then "VK_ERROR_OUT_OF_DATE_KHR"
  else if (res =? VK_ERROR_INCOMPATIBLE_DISPLAY_KHR)%Z then "VK_ERROR_INCOMPATIBLE_DISPLAY_KHR"
  else if (res =? VK_ERROR_VALIDATION_FAILED_EXT)%Z then "VK_ERROR_VALIDATION_FAILED_EXT"
  else if (res =? VK_ERROR_INVALID_SHADER_NV)%Z then "VK_ERROR_INVALID_SHADER_NV"
  else "UNKNOWN_VK_RESULT".

(** The status codes the [switch] of [VkResultToString] names, in its order. *)
Definition declared_results : list VkResult :=
  [ VK_SUCCESS; VK_NOT_READY; VK_TIMEOUT; VK_EVENT_SET; VK_EVENT_RESET; VK_INCOMPLETE;
    VK_ERROR_OUT_OF_HOST_MEMORY; VK_ERROR_OUT_OF_DEVICE_MEMORY;
    VK_ERROR_INITIALIZATION_FAILED; VK_ERROR_DEVICE_LOST; VK_ERROR_MEMORY_MAP_FAILED;
    VK_ERROR_LAYER_NOT_PRESENT; VK_ERROR_EXTENSION_NOT_PRESENT;
    VK_ERROR_FEATURE_NOT_PRESENT; VK_ERROR_INCOMPATIBLE_DRIVER;
    VK_ERROR_TOO_MANY_OBJECTS; VK_ERROR_FORMAT_NOT_SUPPORTED; VK_ERROR_SURFACE_LOST_KHR;
    VK_ERROR_NATIVE_WINDOW_IN_USE_KHR; VK_SUBOPTIMAL_KHR; VK_ERROR_OUT_OF_DATE_KHR;
    VK_ERROR_INCOMPATIBLE_DISPLAY_KHR; VK_ERROR_VALIDATION_FAILED_EXT;
    VK_ERROR_INVALID_SHADER_NV ].

Definition UNKNOWN_VK_RESULT : string := "UNKNOWN_VK_RESULT".

(** Enumerators of [VkResult] that the [switch] does not name, with their
    values in the Vulkan headers: the remaining codes of the core API, versions
    1.0 to 1.2.  (Later versions and extensions declare more.) *)
Definition VK_ERROR_FRAGMENTED_POOL : VkResult := -12.
Definition VK_ERROR_UNKNOWN : VkResult := -13.
Definition VK_ERROR_OUT_OF_POOL_MEMORY : VkResult := -1000069000.
Definition VK_ERROR_INVALID_EXTERNAL_HANDLE : VkResult := -1000072003.
Definition VK_ERROR_FRAGMENTATION : VkResult := -1000161000.
Definition VK_ERROR_INVALID_OPAQUE_CAPTURE_ADDRESS : VkResult := -1000257000.

Definition unnamed_results : list VkResult :=
  [ VK_ERROR_FRAGMENTED_POOL; VK_ERROR_UNKNOWN; VK_ERROR_OUT_OF_POOL_MEMORY;
    VK_ERROR_INVALID_EXTERNAL_HANDLE; VK_ERROR_FRAGMENTATION;
    VK_ERROR_INVALID_OPAQUE_CAPTURE_ADDRESS ].

(** The [VkResult] enumeration, as far as listed here: the codes the [switch]
    names and the codes above.  Its declaration is in the Vulkan headers, not
    among the sources. *)
Definition VkResult_enumerators : list VkResult :=
  declared_results ++ unnamed_results.

Local Close Scope string_scope.

(** ** Sequences of calls, as callers make them *)

(** A slot is live when it does not hold [VK_NULL_HANDLE]. *)
Definition live (slot : Category * Z) : bool := negb (snd slot =? VK_NULL_HANDLE).

(** Teardown of several slots, one helper call per slot, in the order of the
    list; the result is the slots as the calls leave them. *)
Fixpoint ReleaseAll (slots : list (Category * Z)) : Dev (list (Category * Z)) :=
  match slots with
  | [] => ret []
  | (c, h) :: rest =>
      h' <- Release c h ;;
      rest' <- ReleaseAll rest ;;
      ret ((c, h') :: rest')
  end.

(** The arguments of one call of [BufferMemoryBarrier]. *)
Record BarrierArgs := {
  ba_command_buffer : VkCommandBuffer;
  ba_buffer : VkBuffer;
  ba_src_access_mask : VkAccessFlags;
  ba_dst_access_mask : VkAccessFlags;
  ba_offset : VkDeviceSize;
  ba_size : VkDeviceSize;
  ba_src_stage_mask : VkPipelineStageFlags;
  ba_dst_stage_mask : VkPipelineStageFlags
}.

Definition barrier_call (a : BarrierArgs) : Dev unit :=
  BufferMemoryBarrier (ba_command_buffer a) (ba_buffer a) (ba_src_access_mask a)
    (ba_dst_access_mask a) (ba_offset a) (ba_size a) (ba_src_stage_mask a)
    (ba_dst_stage_mask a).

(** The call [vkCmdPipelineBarrier] that one call of [BufferMemoryBarrier]
    is expected to record. *)
Definition barrier_record (a : BarrierArgs) : Call :=
  vkCmdPipelineBarrier (ba_command_buffer a) (ba_src_stage_mask a) (ba_dst_stage_mask a) 0
    [ {| bmb_sType := VK_STRUCTURE_TYPE_BUFFER_MEMORY_BARRIER;
         bmb_pNext := nullptr;
         bmb_srcAccessMask := ba_src_access_mask a;
         bmb_dstAccessMask := ba_dst_access_mask a;
         bmb_srcQueueFamilyIndex := VK_QUEUE_FAMILY_IGNORED;
         bmb_dstQueueFamilyIndex := VK_QUEUE_FAMILY_IGNORED;
         bmb_buffer := ba_buffer a;
         bmb_offset := ba_offset a;
         bmb_size := ba_size a |} ].

(** Several calls of [BufferMemoryBarrier], in the order of the list. *)
Fixpoint barrier_calls (l : list BarrierArgs) : Dev unit :=
  match l with
  | [] => ret tt
  | a :: l' => barrier_call a ;;; barrier_calls l'
  end.

(** [p] is linked after [a]: following [pNext] from [a], one step or more,
    through structures the heap holds, arrives at [p]. *)
Inductive linked_after (m : gmap Z VkBaseInStructure) : Z -> Z -> Prop :=
| linked_next a st :
    deref m a = Some st -> pNext st <> nullptr -> linked_after m a (pNext st)
| linked_later a st p :
    deref m a = Some st -> pNext st <> nullptr ->
    linked_after m (pNext st) p -> linked_after m a p.

(** The pointers of [ps] that a chain holding [l] gains when they are linked
    in order: each one that is neither in [l] nor earlier in [ps], once. *)
Fixpoint first_links (l ps : list Z) : list Z :=
  match ps with
  | [] => []
  | p :: ps' =>
      if decide (p ∈ l) then first_links l ps'
      else p :: first_links (l ++ [p]) ps'
  end.

(** ** Logging of a result code *)







(** * Properties *)

(** ** Teardown *)

Section Teardown.

Lemma after_nil w : after w [] = w.
Proof. destruct w as [d t]. unfold after. simpl. by rewrite app_nil_r. Qed.

Lemma live_test (h : Z) : h <> VK_NULL_HANDLE -> negb (h =? VK_NULL_HANDLE) = true.
Proof. intros H. apply negb_true_iff, Z.eqb_neq, H. Qed.

(** What each helper does, by the state of the slot. *)
Lemma Release_empty c w : Release c VK_NULL_HANDLE w = (VK_NULL_HANDLE, w).
Proof. by destruct c. Qed.

Lemma Release_live c slot w :
  slot <> VK_NULL_HANDLE ->
  exists e, Release c slot w = (VK_NULL_HANDLE, after w [e])
    /\ disposes e = Some (c, slot)
    /\ is_native_destroy e = negb (pooled c)
    /\ is_pool_free e = pooled c
    /\ (pooled c = false -> call_device e = Some (m_device w)).
Proof.
  intros Hlive. apply live_test in Hlive.
  destruct c; cbn -[Z.eqb];
    unfold SafeDestroyFramebuffer, SafeDestroyShaderModule, SafeDestroyPipeline,
      SafeDestroyPipelineLayout, SafeDestroyDescriptorSetLayout, SafeDestroyBufferView,
      SafeDestroyImageView, SafeDestroySampler, SafeDestroySemaphore,
      SafeFreeGlobalDescriptorSet;
    rewrite Hlive; eexists; (split; [reflexivity|]); cbn; repeat split; auto; discriminate.
Qed.



Lemma destroy_calls_app t1 t2 :
  destroy_calls (t1 ++ t2) = (destroy_calls t1 + destroy_calls t2)%nat.
Proof. unfold destroy_calls. by rewrite List.filter_app, length_app. Qed.

Lemma pool_frees_app t1 t2 :
  pool_frees (t1 ++ t2) = (pool_frees t1 + pool_frees t2)%nat.
Proof. unfold pool_frees. by rewrite List.filter_app, length_app. Qed.

Lemma destroy_calls_one e :
  destroy_calls [e] = if is_native_destroy e then 1%nat else 0%nat.
Proof. unfold destroy_calls. simpl. by destruct (is_native_destroy e). Qed.

Lemma pool_frees_one e :
  pool_frees [e] = if is_pool_free e then 1%nat else 0%nat.
Proof. unfold pool_frees. simpl. by destruct (is_pool_free e). Qed.

(** C1.  Teardown of a live slot by one of the [SafeDestroy*] helpers issues
    exactly one call, the [vkDestroy*] entry point of the slot's category, on
    the device of the context and for the handle the slot holds, and leaves
    the slot holding [VK_NULL_HANDLE]. *)
Theorem Release_live_destroys_once (c : Category) (slot : Z) (w : World) :
  pooled c = false ->
  slot <> VK_NULL_HANDLE ->
  exists e,
    Release c slot w = (VK_NULL_HANDLE, after w [e])
    /\ is_native_destroy e = true
    /\ disposes e = Some (c, slot)
    /\ call_device e = Some (m_device w)
    /\ destroy_calls (trace (after w [e])) = S (destroy_calls (trace w)).
Proof.
  intros Hc Hlive.
  destruct (Release_live c slot w Hlive) as (e & Hrun & Hd & Hn & _ & Hdev).
  rewrite Hc in Hn. simpl in Hn.
  exists e. repeat split; auto.
  unfold after. simpl. rewrite destroy_calls_app, destroy_calls_one, Hn. lia.
Qed.

Lemma Release_live_destroys_once_witness :
  exists e,
    Release Framebuffer 7 {| m_device := 1; trace := [] |}
      = (VK_NULL_HANDLE, after {| m_device := 1; trace := [] |} [e])
    /\ is_native_destroy e = true
    /\ disposes e = Some (Framebuffer, 7)
    /\ call_device e = Some 1
    /\ destroy_calls (trace (after {| m_device := 1; trace := [] |} [e])) = 1%nat.
Proof.
  apply (Release_live_destroys_once Framebuffer 7 {| m_device := 1; trace := [] |}).
  - reflexivity.
  - discriminate.
Defined.

(** C2.  Teardown is idempotent.  On an empty slot a helper issues no call and
    leaves the slot empty.  Two teardowns in succession leave the slot empty
    and issue, in total, one call when the slot was live and none when it was
    empty: a [vkDestroy*] call for the [SafeDestroy*] helpers, a pool free for
    the descriptor set helper; the second teardown adds nothing to the first. *)
Theorem Release_idempotent (c : Category) (slot : Z) (w : World) :
  Release c VK_NULL_HANDLE w = (VK_NULL_HANDLE, w)
  /\ Release c (fst (Release c slot w)) (snd (Release c slot w))
       = (VK_NULL_HANDLE, snd (Release c slot w))
  /\ exists new,
       ReleaseTwice c slot w = (VK_NULL_HANDLE, after w new)
       /\ length new = (if decide (slot = VK_NULL_HANDLE) then 0 else 1)%nat
       /\ destroy_calls new = (if pooled c then 0 else length new)%nat
       /\ pool_frees new = (if pooled c then length new else 0)%nat
       /\ Forall (fun e => disposes e = Some (c, slot)) new.
Proof.
  split; [apply Release_empty|].
  destruct (decide (slot = VK_NULL_HANDLE)) as [->|Hlive].
  - rewrite Release_empty. simpl. split; [apply Release_empty|].
    exists []. unfold ReleaseTwice, bind. rewrite !Release_empty, after_nil.
    repeat split; auto. all: by destruct (pooled c).
  - destruct (Release_live c slot w Hlive) as (e & Hrun & Hd & Hn & Hp & _).
    rewrite Hrun. simpl. split; [apply Release_empty|].
    exists [e]. unfold ReleaseTwice, bind. rewrite Hrun, Release_empty.
    rewrite destroy_calls_one, pool_frees_one, Hn, Hp.
    repeat split; auto. all: by destruct (pooled c).
Qed.

(** C3.  No teardown helper passes [VK_NULL_HANDLE] to a call: every call a
    teardown adds to the trace disposes of a handle that is not null. *)
Theorem Release_never_passes_null (c : Category) (slot : Z) (w : World) :
  exists new,
    snd (Release c slot w) = after w new
    /\ Forall (fun e => forall k h, disposes e = Some (k, h) -> h <> VK_NULL_HANDLE) new
    /\ Forall (fun e => disposes e <> Some (c, VK_NULL_HANDLE)) new
    /\ (slot = VK_NULL_HANDLE -> new = []).
Proof.
  destruct (decide (slot = VK_NULL_HANDLE)) as [->|Hlive].
  - exists []. rewrite Release_empty, after_nil. simpl. repeat split; auto.
  - destruct (Release_live c slot w Hlive) as (e & Hrun & Hd & _).
    exists [e]. rewrite Hrun. simpl. repeat split.
    + constructor; [|constructor]. intros k h Hk. congruence.
    + constructor; [|constructor]. congruence.
    + intros ->. by destruct Hlive.
Qed.

(** C4.  Teardown of a live descriptor set slot hands the set back through
    [FreeGlobalDescriptorSet] of the context, issues no [vkDestroy*] call, and
    leaves the slot holding [VK_NULL_HANDLE]. *)
Theorem SafeFreeGlobalDescriptorSet_returns_to_pool (ds : VkDescriptorSet) (w : World) :
  ds <> VK_NULL_HANDLE ->
  SafeFreeGlobalDescriptorSet ds w = (VK_NULL_HANDLE, after w [FreeGlobalDescriptorSet ds])
  /\ is_native_destroy (FreeGlobalDescriptorSet ds) = false
  /\ destroy_calls (trace (after w [FreeGlobalDescriptorSet ds])) = destroy_calls (trace w)
  /\ pool_frees (trace (after w [FreeGlobalDescriptorSet ds])) = S (pool_frees (trace w)).
Proof.
  intros Hlive. unfold SafeFreeGlobalDescriptorSet. rewrite (live_test _ Hlive).
  repeat split.
  - unfold after. simpl. rewrite destroy_calls_app. simpl. unfold destroy_calls at 2. simpl. lia.
  - unfold after. simpl. rewrite pool_frees_app. unfold pool_frees at 2. simpl. lia.
Qed.

Lemma SafeFreeGlobalDescriptorSet_returns_to_pool_witness :
  SafeFreeGlobalDescriptorSet 9 {| m_device := 1; trace := [vkDestroySampler 1 4 nullptr] |}
    = (VK_NULL_HANDLE,
       {| m_device := 1;
          trace := [vkDestroySampler 1 4 nullptr; FreeGlobalDescriptorSet 9] |}).
Proof.
  refine (proj1 (SafeFreeGlobalDescriptorSet_returns_to_pool 9
                   {| m_device := 1; trace := [vkDestroySampler 1 4 nullptr] |} _)).
  discriminate.
Defined.

End Teardown.

(** ** Buffer barrier *)

(** C5.  The descriptor [BufferMemoryBarrier] builds depends on its arguments
    alone: both queue family fields are [VK_QUEUE_FAMILY_IGNORED], and the
    buffer, the access masks, the offset and the size are the arguments; with
    offset [0] and size [VK_WHOLE_SIZE] it covers the whole buffer.  The
    function records one [vkCmdPipelineBarrier] carrying that descriptor alone,
    between the two stage masks given. *)
Theorem BufferMemoryBarrier_descriptor (command_buffer : VkCommandBuffer) (buffer : VkBuffer)
    (src_access_mask dst_access_mask : VkAccessFlags) (offset size : VkDeviceSize)
    (src_stage_mask dst_stage_mask : VkPipelineStageFlags) (w : World) :
  bmb_srcQueueFamilyIndex (buffer_info buffer src_access_mask dst_access_mask offset size)
    = VK_QUEUE_FAMILY_IGNORED
  /\ bmb_dstQueueFamilyIndex (buffer_info buffer src_access_mask dst_access_mask offset size)
    = VK_QUEUE_FAMILY_IGNORED
  /\ bmb_buffer (buffer_info buffer src_access_mask dst_access_mask offset size) = buffer
  /\ bmb_srcAccessMask (buffer_info buffer src_access_mask dst_access_mask offset size)
    = src_access_mask
  /\ bmb_dstAccessMask (buffer_info buffer src_access_mask dst_access_mask offset size)
    = dst_access_mask
  /\ bmb_offset (buffer_info buffer src_access_mask dst_access_mask offset size) = offset
  /\ bmb_size (buffer_info buffer src_access_mask dst_access_mask offset size) = size
  /\ bmb_offset (buffer_info buffer src_access_mask dst_access_mask 0 VK_WHOLE_SIZE) = 0
  /\ bmb_size (buffer_info buffer src_access_mask dst_access_mask 0 VK_WHOLE_SIZE)
    = VK_WHOLE_SIZE
  /\ BufferMemoryBarrier command_buffer buffer src_access_mask dst_access_mask offset size
       src_stage_mask dst_stage_mask w
     = (tt, after w [vkCmdPipelineBarrier command_buffer src_stage_mask dst_stage_mask 0
                       [buffer_info buffer src_access_mask dst_access_mask offset size]]).
Proof. repeat split. Qed.

(** ** Structure chains *)

Section Chain.

Implicit Types (m : gmap Z VkBaseInStructure) (a p head ptr : Z) (l : list Z).
Implicit Types (st : VkBaseInStructure) (fuel : nat).

Lemma deref_Some m p st : deref m p = Some st -> p <> nullptr /\ m !! p = Some st.
Proof. unfold deref. case_decide; [discriminate|auto]. Qed.

Lemma deref_insert_ne m a p st : a <> p -> deref (<[a := st]> m) p = deref m p.
Proof. intros Hne. unfold deref. case_decide; [done|]. by rewrite lookup_insert_ne. Qed.

Lemma deref_insert_eq m a st : a <> nullptr -> deref (<[a := st]> m) a = Some st.
Proof. intros Hne. unfold deref. case_decide; [done|]. by rewrite lookup_insert_eq. Qed.

(** A heap has at most one chain from a given structure. *)
Lemma chain_from_det m a l1 l2 : chain_from m a l1 -> chain_from m a l2 -> l1 = l2.
Proof.
  intros H1. revert l2.
  induction H1 as [a st Ha Hn | a st l Ha Hn H1 IH]; intros l2 H2.
  - inversion H2 as [a' st' Ha' Hn' | a' st' l' Ha' Hn' H2']; subst; [done|].
    congruence.
  - inversion H2 as [a' st' Ha' Hn' | a' st' l' Ha' Hn' H2']; subst.
    + congruence.
    + assert (st' = st) as -> by congruence. f_equal. by apply IH.
Qed.

(** The chain of a linked structure is the rest of the chain after it. *)
Lemma chain_from_split m a l p :
  chain_from m a l -> p ∈ l -> exists l1 l2, l = l1 ++ p :: l2 /\ chain_from m p l2.
Proof.
  induction 1 as [a st Ha Hn | a st l Ha Hn H1 IH]; intros Hp.
  - by apply elem_of_nil in Hp.
  - apply elem_of_cons in Hp as [->|Hp].
    + exists [], l. done.
    + destruct (IH Hp) as (l1 & l2 & -> & H2).
      exists (pNext st :: l1), l2. done.
Qed.

Lemma chain_from_linked m a l p :
  chain_from m a l -> p ∈ l -> p <> nullptr /\ is_Some (deref m p).
Proof.
  intros H Hp. destruct (chain_from_split m a l p H Hp) as (l1 & l2 & _ & H2).
  inversion H2 as [a' st' Ha' Hn' | a' st' l' Ha' Hn' H2']; subst;
    (split; [by apply deref_Some in Ha' as [? _] | by eexists]).
Qed.

Lemma chain_from_head m a l : chain_from m a l -> a <> nullptr /\ is_Some (deref m a).
Proof.
  inversion 1 as [a' st' Ha' Hn' | a' st' l' Ha' Hn' H2']; subst;
    (split; [by apply deref_Some in Ha' as [? _] | by eexists]).
Qed.

(** A chain does not come back to the structure it starts from. *)
Lemma chain_from_head_notin m a l : chain_from m a l -> a ∉ l.
Proof.
  intros H Ha. destruct (chain_from_split m a l a H Ha) as (l1 & l2 & Hl & H2).
  pose proof (chain_from_det m a l l2 H H2) as Heq.
  apply (f_equal length) in Hl. rewrite length_app in Hl. simpl in Hl.
  rewrite Heq in Hl. lia.
Qed.

(** A chain is acyclic: the head and the structures linked after it are
    pairwise distinct. *)
Lemma chain_from_NoDup m a l : chain_from m a l -> NoDup (a :: l).
Proof.
  intros H. pose proof H as H0.
  induction H as [a st Ha Hn | a st l Ha Hn H1 IH].
  - apply NoDup_singleton.
  - apply NoDup_cons. split; [by apply (chain_from_head_notin m)|by apply IH].
Qed.

Lemma chain_tail_elem a l : chain_tail a l ∈ a :: l.
Proof.
  revert a. induction l as [|b l IH]; intros a; simpl.
  - apply list_elem_of_here.
  - apply list_elem_of_further, IH.
Qed.

Lemma chain_tail_app a l p : chain_tail a (l ++ [p]) = p.
Proof. revert a. induction l as [|b l IH]; intros a; simpl; [done|apply IH]. Qed.

(** The tail of a chain is the structure whose [pNext] is null. *)
Lemma chain_from_tail m a l :
  chain_from m a l -> exists st, deref m (chain_tail a l) = Some st /\ pNext st = nullptr.
Proof.
  induction 1 as [a st Ha Hn | a st l Ha Hn H1 IH]; simpl; [by exists st|done].
Qed.

(** The walk of a consumer ends on a chain, and lists it. *)
Lemma chain_nodes_complete m a l fuel :
  chain_from m a l -> (length l <= fuel)%nat -> chain_nodes fuel m a = Some l.
Proof.
  intros H. revert fuel.
  induction H as [a st Ha Hn | a st l Ha Hn H1 IH]; intros fuel Hf.
  - destruct fuel; simpl; rewrite Ha; by case_decide.
  - destruct fuel as [|fuel]; simpl in Hf; [lia|].
    simpl. rewrite Ha. case_decide; [done|]. rewrite IH; [done|lia].
Qed.

Lemma chain_nodes_sound fuel m a l : chain_nodes fuel m a = Some l -> chain_from m a l.
Proof.
  revert a l. induction fuel as [|fuel IH]; intros a l; simpl.
  - destruct (deref m a) as [st|] eqn:Ha; [|discriminate].
    case_decide; [|discriminate]. intros [= <-]. by apply chain_end with st.
  - destruct (deref m a) as [st|] eqn:Ha; [|discriminate].
    case_decide as Hn.
    + intros [= <-]. by apply chain_end with st.
    + destruct (chain_nodes fuel m (pNext st)) as [l'|] eqn:Hl; [|discriminate].
      intros [= <-]. apply chain_step; auto.
Qed.

(** On a concrete heap the chain of a structure is found by walking it. *)
Ltac chain_by_walk :=
  lazymatch goal with
  | |- chain_from _ _ ?l => apply (chain_nodes_sound (length l)); reflexivity
  end.

(** A walk that ran out of iterations ends when given more. *)
Lemma AddPointerToChain_fuel_mono fuel fuel' m a ptr m' :
  AddPointerToChain fuel m a ptr = Done m' -> (fuel <= fuel')%nat ->
  AddPointerToChain fuel' m a ptr = Done m'.
Proof.
  revert fuel' a. induction fuel as [|fuel IH]; intros fuel' a; simpl.
  - destruct (deref m a) as [st|] eqn:Ha; [|discriminate].
    case_decide; [|discriminate]. intros Hd _.
    destruct fuel'; simpl; rewrite Ha; by case_decide.
  - destruct (deref m a) as [st|] eqn:Ha; [|discriminate].
    intros Hd Hf. destruct fuel' as [|fuel']; [case_decide; [|lia]|]; simpl; rewrite Ha.
    + by case_decide.
    + case_decide; [done|]. case_decide; [done|]. apply IH; [done|lia].
Qed.

(** The loop on a structure that is already linked: it returns at the
    structure before it and writes nothing. *)
Lemma AddPointerToChain_linked fuel m a l ptr :
  chain_from m a l -> ptr ∈ l -> (length l <= fuel)%nat ->
  AddPointerToChain fuel m a ptr = Done m.
Proof.
  intros H. revert fuel.
  induction H as [a st Ha Hn | a st l Ha Hn H1 IH]; intros fuel Hp Hf.
  - by apply elem_of_nil in Hp.
  - destruct fuel as [|fuel]; simpl in Hf; [lia|].
    simpl. rewrite Ha. case_decide; [done|]. case_decide as Heq; [done|].
    apply elem_of_cons in Hp as [->|Hp]; [done|]. apply IH; [done|lia].
Qed.

(** The loop on a structure that is not linked: it runs to the tail and
    stores the pointer in the tail's [pNext]. *)
Lemma AddPointerToChain_fresh fuel m a l ptr :
  chain_from m a l -> ptr ∉ l -> (length l <= fuel)%nat ->
  exists st, deref m (chain_tail a l) = Some st /\ pNext st = nullptr
    /\ AddPointerToChain fuel m a ptr = Done (<[chain_tail a l := set_pNext st ptr]> m).
Proof.
  intros H. revert fuel.
  induction H as [a st Ha Hn | a st l Ha Hn H1 IH]; intros fuel Hp Hf.
  - exists st. simpl. repeat split; auto.
    destruct fuel; simpl; rewrite Ha; by case_decide.
  - destruct fuel as [|fuel]; simpl in Hf; [lia|].
    apply not_elem_of_cons in Hp as [Hne Hp].
    destruct (IH fuel Hp) as (st' & Ht & Hn' & Hrun); [lia|].
    exists st'. simpl. repeat split; auto.
    rewrite Ha. case_decide; [done|]. case_decide; [congruence|]. done.
Qed.

(** Storing a structure that is not in the chain, and whose own [pNext] is
    null, in the [pNext] of the tail gives the chain with that structure at
    its end. *)
Lemma chain_from_link m a l ptr st sp :
  chain_from m a l -> ptr ∉ a :: l ->
  deref m ptr = Some sp -> pNext sp = nullptr ->
  deref m (chain_tail a l) = Some st ->
  chain_from (<[chain_tail a l := set_pNext st ptr]> m) a (l ++ [ptr]).
Proof.
  intros H. revert st.
  induction H as [a st0 Ha Hn | a st0 l Ha Hn H1 IH]; intros st Hp Hsp Hnp Ht.
  - simpl in *. apply not_elem_of_cons in Hp as [Hne _].
    destruct (deref_Some _ _ _ Ha) as [Ha0 _].
    destruct (deref_Some _ _ _ Hsp) as [Hp0 _].
    change [ptr] with (pNext (set_pNext st ptr) :: []).
    apply chain_step.
    + by apply deref_insert_eq.
    + done.
    + simpl. apply chain_end with sp; [|done]. rewrite deref_insert_ne; auto.
  - simpl in *. apply not_elem_of_cons in Hp as [Hne Hp].
    apply chain_step; [|done|by apply IH].
    rewrite deref_insert_ne; [done|].
    intros Heq. apply (chain_from_head_notin m a (pNext st0 :: l)).
    + by apply chain_step.
    + rewrite <- Heq. apply chain_tail_elem.
Qed.

(** Whatever the heap, a call that returns has written nothing, or has
    written its argument into one [pNext] that was null. *)
Lemma AddPointerToChain_one_write fuel m a ptr m' :
  AddPointerToChain fuel m a ptr = Done m' ->
  m' = m \/ exists t st, deref m t = Some st /\ pNext st = nullptr
                      /\ m' = <[t := set_pNext st ptr]> m.
Proof.
  revert a. induction fuel as [|fuel IH]; intros a; simpl;
    destruct (deref m a) as [st|] eqn:Ha; try discriminate.
  - case_decide; [|discriminate]. intros [= <-]. right. by exists a, st.
  - case_decide; [intros [= <-]; right; by exists a, st|].
    case_decide; [intros [= <-]; by left|]. apply IH.
Qed.

(** One structure, not in the chain and with a null [pNext], is put at the end
    of the chain. *)
Lemma AddPointerToChain_append fuel m head l ptr sp :
  chain_from m head l -> ptr ∉ head :: l ->
  deref m ptr = Some sp -> pNext sp = nullptr -> (length l <= fuel)%nat ->
  exists st, deref m (chain_tail head l) = Some st /\ pNext st = nullptr
    /\ AddPointerToChain fuel m head ptr = Done (<[chain_tail head l := set_pNext st ptr]> m)
    /\ chain_from (<[chain_tail head l := set_pNext st ptr]> m) head (l ++ [ptr]).
Proof.
  intros H Hp Hsp Hn Hf.
  destruct (AddPointerToChain_fresh fuel m head l ptr H) as (st & Ht & Hnt & Hrun); auto.
  { by apply not_elem_of_cons in Hp as [_ ?]. }
  exists st. repeat split; auto. by apply chain_from_link with sp.
Qed.

Lemma link_in_order_app fuel m head ps qs :
  link_in_order fuel m head (ps ++ qs) =
  match link_in_order fuel m head ps with
  | Done m' => link_in_order fuel m' head qs
  | o => o
  end.
Proof.
  revert m. induction ps as [|p ps IH]; intros m; simpl; [done|].
  destruct (AddPointerToChain fuel m head p); auto.
Qed.

(** Structures that are pairwise distinct, not in the chain, and have a null
    [pNext], linked one after the other, extend the chain in that order. *)
Lemma link_in_order_fresh fuel m head l ps :
  chain_from m head l -> NoDup ps ->
  (forall p, p ∈ ps -> (p ∉ head :: l) /\ exists sp, deref m p = Some sp /\ pNext sp = nullptr) ->
  (length l + length ps <= fuel)%nat ->
  exists m', link_in_order fuel m head ps = Done m' /\ chain_from m' head (l ++ ps).
Proof.
  intros H Hnd. revert m l H.
  induction Hnd as [|p ps Hp Hnd IH]; intros m l H Hps Hf.
  - exists m. rewrite app_nil_r. done.
  - simpl in Hf.
    destruct (Hps p) as (Hpl & sp & Hsp & Hn); [apply list_elem_of_here|].
    destruct (AddPointerToChain_append fuel m head l p sp H Hpl Hsp Hn)
      as (st & Ht & Hnt & Hrun & Hch); [lia|].
    destruct (IH (<[chain_tail head l := set_pNext st p]> m) (l ++ [p]) Hch)
      as (m' & Hrun' & Hch').
    + intros q Hq.
      destruct (Hps q) as (Hql & sq & Hsq & Hnq); [by apply list_elem_of_further|].
      split.
      * rewrite app_comm_cons. intros [Hin|Hin%list_elem_of_singleton]%elem_of_app; [done|].
        by subst q.
      * exists sq. split; [|done]. rewrite deref_insert_ne; [done|].
        intros Heq. apply Hql. rewrite <- Heq. apply chain_tail_elem.
    + rewrite length_app. simpl. lia.
    + exists m'. simpl. rewrite Hrun. split; [done|]. by rewrite <- app_assoc in Hch'.
Qed.

(** C6.  A structure already linked after the head is not linked again: the
    call returns the heap it was given, and the walk of the chain still ends
    and lists the same structures.  So linking a structure twice gives the
    heap that linking it once gives, and linking X, then Y, then X again gives
    the chain of the head extended by X and Y, that is [X; Y], of length 2,
    when nothing was linked before. *)
Theorem AddPointerToChain_duplicate_noop m head l :
  chain_from m head l ->
  (forall fuel ptr, ptr ∈ l -> (length l <= fuel)%nat ->
     AddPointerToChain fuel m head ptr = Done m /\ chain_nodes fuel m head = Some l)
  /\ (forall fuel x sx, x ∉ head :: l -> deref m x = Some sx -> pNext sx = nullptr ->
       (length l + 1 <= fuel)%nat ->
       exists m1, link_in_order fuel m head [x] = Done m1
         /\ link_in_order fuel m head [x; x] = Done m1
         /\ chain_nodes fuel m1 head = Some (l ++ [x])
         /\ length (l ++ [x]) = S (length l))
  /\ (forall fuel X Y sX sY, X ∉ head :: l -> Y ∉ head :: l -> X <> Y ->
       deref m X = Some sX -> pNext sX = nullptr ->
       deref m Y = Some sY -> pNext sY = nullptr ->
       (length l + 2 <= fuel)%nat ->
       exists m2, link_in_order fuel m head [X; Y; X] = Done m2
         /\ chain_nodes fuel m2 head = Some (l ++ [X; Y])
         /\ (l = [] -> chain_nodes fuel m2 head = Some [X; Y] /\ length [X; Y] = 2%nat)).
Proof.
  intros H. split; [|split].
  - intros fuel ptr Hp Hf. split.
    + by apply AddPointerToChain_linked with l.
    + by apply chain_nodes_complete.
  - intros fuel x sx Hx Hsx Hn Hf.
    destruct (link_in_order_fresh fuel m head l [x] H) as (m1 & Hrun & Hch).
    { apply NoDup_singleton. }
    { intros p ->%list_elem_of_singleton. eauto. }
    { simpl. lia. }
    exists m1. split; [done|].
    assert (AddPointerToChain fuel m1 head x = Done m1) as Hagain.
    { apply AddPointerToChain_linked with (l ++ [x]); [done| |].
      - apply elem_of_app. right. apply list_elem_of_here.
      - rewrite length_app. simpl. lia. }
    split; [|split].
    + change [x; x] with ([x] ++ [x]). rewrite link_in_order_app, Hrun. simpl.
      by rewrite Hagain.
    + apply chain_nodes_complete; [done|]. rewrite length_app. simpl. lia.
    + rewrite length_app. simpl. lia.
  - intros fuel X Y sX sY HX HY Hne HsX HnX HsY HnY Hf.
    destruct (link_in_order_fresh fuel m head l [X; Y] H) as (m2 & Hrun & Hch).
    { apply NoDup_cons. split; [by intros ->%list_elem_of_singleton|apply NoDup_singleton]. }
    { intros p [-> | ->%list_elem_of_singleton]%elem_of_cons; eauto. }
    { simpl. lia. }
    exists m2.
    assert (chain_nodes fuel m2 head = Some (l ++ [X; Y])) as Hwalk.
    { apply chain_nodes_complete; [done|]. rewrite length_app. simpl. lia. }
    split; [|split; [done|]].
    + change [X; Y; X] with ([X; Y] ++ [X]). rewrite link_in_order_app, Hrun. simpl.
      rewrite (AddPointerToChain_linked fuel m2 head (l ++ [X; Y]) X); [done|done| |].
      * apply elem_of_app. right. apply list_elem_of_here.
      * rewrite length_app. simpl. lia.
    + intros ->. done.
Qed.

(** C7.  Structures that are not yet in the chain (neither its head nor
    linked after it), pairwise distinct and each with a null [pNext], linked
    in their order of arrival, are appended at the tail in that order: the
    walk from the head lists the structures linked before, then the new ones
    as they arrived.  For a single structure, the call stores it in the
    [pNext] of the former tail. *)
Theorem AddPointerToChain_appends_in_order fuel m head l ps :
  chain_from m head l -> NoDup ps ->
  (forall p, p ∈ ps -> (p ∉ head :: l) /\ exists sp, deref m p = Some sp /\ pNext sp = nullptr) ->
  (length l + length ps <= fuel)%nat ->
  exists m', link_in_order fuel m head ps = Done m'
    /\ chain_from m' head (l ++ ps)
    /\ chain_nodes fuel m' head = Some (l ++ ps)
    /\ (forall x, ps = [x] ->
          AddPointerToChain fuel m head x = Done m'
          /\ chain_tail head (l ++ ps) = x
          /\ exists st, deref m (chain_tail head l) = Some st /\ pNext st = nullptr
               /\ m' = <[chain_tail head l := set_pNext st x]> m).
Proof.
  intros H Hnd Hps Hf.
  destruct (link_in_order_fresh fuel m head l ps H Hnd Hps Hf) as (m' & Hrun & Hch).
  exists m'. repeat split; auto.
  - apply chain_nodes_complete; [done|]. by rewrite length_app.
  - subst ps. simpl in Hrun. by destruct (AddPointerToChain fuel m head x).
  - subst ps. apply chain_tail_app.
  - subst ps. destruct (Hps x) as (Hx & sx & Hsx & Hn); [apply list_elem_of_here|].
    destruct (AddPointerToChain_append fuel m head l x sx H Hx Hsx Hn)
      as (st & Ht & Hnt & Hrun1 & _); [simpl in Hf; lia|].
    exists st. repeat split; auto.
    simpl in Hrun. rewrite Hrun1 in Hrun. congruence.
Qed.

Lemma AddPointerToChain_duplicate_noop_witness :
  (AddPointerToChain 1 one_linked 16 32 = Done one_linked
   /\ chain_nodes 1 one_linked 16 = Some [32])
  /\ exists m2, link_in_order 2 three_structs 16 [32; 48; 32] = Done m2
       /\ chain_nodes 2 m2 16 = Some [32; 48].
Proof.
  split.
  - assert (chain_from one_linked 16 [32]) as H by chain_by_walk.
    apply (proj1 (AddPointerToChain_duplicate_noop one_linked 16 [32] H)).
    + apply list_elem_of_here.
    + simpl. lia.
  - assert (chain_from three_structs 16 []) as H by chain_by_walk.
    destruct (proj2 (proj2 (AddPointerToChain_duplicate_noop three_structs 16 [] H))
                2%nat 32 48 (unlinked 1000) (unlinked 1001))
      as (m2 & Hrun & Hwalk & _).
    + intros [=]%list_elem_of_singleton.
    + intros [=]%list_elem_of_singleton.
    + discriminate.
    + reflexivity.
    + reflexivity.
    + reflexivity.
    + reflexivity.
    + simpl. lia.
    + exists m2. split; assumption.
Defined.

Lemma AddPointerToChain_appends_in_order_witness :
  exists m', link_in_order 2 three_structs 16 [32; 48] = Done m'
    /\ chain_from m' 16 [32; 48]
    /\ chain_nodes 2 m' 16 = Some [32; 48].
Proof.
  destruct (AddPointerToChain_appends_in_order 2 three_structs 16 [] [32; 48])
    as (m' & Hrun & Hch & Hwalk & _).
  - chain_by_walk.
  - apply NoDup_cons. split; [by intros [=]%list_elem_of_singleton|apply NoDup_singleton].
  - intros p [-> | ->%list_elem_of_singleton]%elem_of_cons.
    + split; [by intros [=]%list_elem_of_singleton|]. by exists (unlinked 1000).
    + split; [by intros [=]%list_elem_of_singleton|]. by exists (unlinked 1001).
  - simpl. lia.
  - exists m'. repeat split; assumption.
Defined.

(** C8, as amended.  [AddPointerToChain] keeps a chain a chain, for an
    argument that is not the head itself and whose [pNext] is null: the call
    returns, the head still has a chain that ends, the head and the structures
    linked after it are pairwise distinct, and the structures linked before
    come first, in the order they had; the argument follows them when it was
    not among them. *)
Theorem AddPointerToChain_preserves_chain fuel m head l ptr sp :
  chain_from m head l -> ptr <> head ->
  deref m ptr = Some sp -> pNext sp = nullptr -> (length l <= fuel)%nat ->
  exists m' l', AddPointerToChain fuel m head ptr = Done m'
    /\ chain_from m' head l'
    /\ NoDup (head :: l')
    /\ chain_nodes (S fuel) m' head = Some l'
    /\ l' = (if decide (ptr ∈ l) then l else l ++ [ptr])
    /\ l `prefix_of` l'.
Proof.
  intros H Hne Hsp Hn Hf.
  destruct (decide (ptr ∈ l)) as [Hin|Hnin].
  - exists m, l. repeat split.
    + by apply AddPointerToChain_linked with l.
    + done.
    + by apply (chain_from_NoDup m).
    + apply chain_nodes_complete; [done|lia].
    + done.
  - destruct (AddPointerToChain_append fuel m head l ptr sp H)
      as (st & Ht & Hnt & Hrun & Hch); auto.
    { by apply not_elem_of_cons. }
    exists (<[chain_tail head l := set_pNext st ptr]> m), (l ++ [ptr]). repeat split.
    + done.
    + done.
    + by apply (chain_from_NoDup _ _ _ Hch).
    + apply chain_nodes_complete; [done|]. rewrite length_app. simpl. lia.
    + by apply prefix_app_r.
Qed.

Lemma AddPointerToChain_preserves_chain_witness :
  exists m' l', AddPointerToChain 1 one_linked 16 48 = Done m'
    /\ chain_from m' 16 l'
    /\ NoDup (16 :: l')
    /\ chain_nodes 2 m' 16 = Some l'
    /\ l' = [32; 48].
Proof.
  destruct (AddPointerToChain_preserves_chain 1 one_linked 16 [32] 48 (unlinked 1001))
    as (m' & l' & Hrun & Hch & Hnd & Hwalk & Hl & _).
  - chain_by_walk.
  - discriminate.
  - reflexivity.
  - reflexivity.
  - simpl. lia.
  - exists m', l'. repeat split; assumption.
Defined.

Lemma self_linked_no_chain a l : chain_from self_linked a l -> a <> 16.
Proof.
  induction 1 as [a st Ha Hn | a st l Ha Hn H1 IH]; intros ->.
  - vm_compute in Ha. injection Ha as <-. discriminate.
  - vm_compute in Ha. injection Ha as <-. by apply IH.
Qed.

(** C8, the case the claim as stated does not survive: the head of an empty
    chain, whose own [pNext] is null, given as the argument.  The call stores
    the head in its own [pNext]; the head then has no chain that ends, and the
    walk from it never reaches a null [pNext]. *)
Lemma AddPointerToChain_head_onto_itself :
  (chain_from lone_struct 16 []
   /\ NoDup [16]
   /\ deref lone_struct 16 = Some (unlinked 3)
   /\ pNext (unlinked 3) = nullptr)
  /\ (forall fuel, AddPointerToChain fuel lone_struct 16 16 = Done self_linked)
  /\ ~ (exists l', chain_from self_linked 16 l')
  /\ (forall fuel, chain_nodes fuel self_linked 16 = None).
Proof.
  split; [|split; [|split]].
  - repeat split.
    + chain_by_walk.
    + apply NoDup_singleton.
  - intros [|fuel]; reflexivity.
  - intros [l' H]. by apply (self_linked_no_chain 16 l').
  - intros fuel. destruct (chain_nodes fuel self_linked 16) as [l'|] eqn:Hw; [|done].
    apply chain_nodes_sound in Hw. by apply self_linked_no_chain in Hw.
Qed.

(** C10.  On a chain, [AddPointerToChain] returns and writes at most one
    field.  When the argument is already linked, the heap is the one given.
    Otherwise the heap differs from the one given in the structure at the
    tail alone, whose [pNext] was null and now holds the argument, and whose
    type tag and other members are as before; every other structure is as
    before, the argument's own, when it is not yet in the chain, included. *)
Theorem AddPointerToChain_frame fuel m head l ptr :
  chain_from m head l -> (length l <= fuel)%nat ->
  exists m' st,
    AddPointerToChain fuel m head ptr = Done m'
    /\ deref m (chain_tail head l) = Some st
    /\ pNext st = nullptr
    /\ (ptr ∈ l -> m' = m)
    /\ (ptr ∉ l -> m' = <[chain_tail head l := set_pNext st ptr]> m)
    /\ (forall q, q <> chain_tail head l -> m' !! q = m !! q)
    /\ (exists st', m' !! chain_tail head l = Some st'
          /\ sType st' = sType st /\ members st' = members st
          /\ (pNext st' = pNext st \/ pNext st' = ptr))
    /\ (ptr ∉ head :: l -> m' !! ptr = m !! ptr).
Proof.
  intros H Hf.
  destruct (chain_from_tail m head l H) as (st & Ht & Hnt).
  destruct (deref_Some _ _ _ Ht) as [Ht0 Hlook].
  destruct (decide (ptr ∈ l)) as [Hin|Hnin].
  - exists m, st. repeat split; auto.
    + by apply AddPointerToChain_linked with l.
    + done.
    + exists st. auto.
  - destruct (AddPointerToChain_fresh fuel m head l ptr H Hnin Hf) as (st1 & Ht1 & _ & Hrun).
    assert (st1 = st) as -> by congruence.
    exists (<[chain_tail head l := set_pNext st ptr]> m), st. repeat split; auto.
    + done.
    + intros q Hq. by rewrite lookup_insert_ne.
    + exists (set_pNext st ptr). rewrite lookup_insert_eq. simpl. auto.
    + intros Hp. rewrite lookup_insert_ne; [done|].
      intros Heq. apply Hp. rewrite <- Heq. apply chain_tail_elem.
Qed.

Lemma AddPointerToChain_frame_witness :
  exists m' st,
    AddPointerToChain 1 one_linked 16 48 = Done m'
    /\ deref one_linked 32 = Some st
    /\ m' = <[32 := set_pNext st 48]> one_linked
    /\ m' !! 16 = one_linked !! 16
    /\ m' !! 48 = one_linked !! 48.
Proof.
  destruct (AddPointerToChain_frame 1 one_linked 16 [32] 48)
    as (m' & st & Hrun & Ht & _ & _ & Hnew & Hother & _ & Hptr).
  - chain_by_walk.
  - simpl. lia.
  - exists m', st. repeat split.
    + exact Hrun.
    + exact Ht.
    + apply Hnew. by intros [=]%list_elem_of_singleton.
    + apply Hother. discriminate.
    + apply Hptr. intros [[=] | [=]%list_elem_of_singleton]%elem_of_cons.
Defined.

End Chain.

(** ** Result codes *)

Section ResultCodes.

Local Open Scope string_scope.

(** The string of each status code the file declares one for. *)
Lemma VkResultToString_declared :
  VkResultToString <$> declared_results =
  [ "VK_SUCCESS"; "VK_NOT_READY"; "VK_TIMEOUT"; "VK_EVENT_SET"; "VK_EVENT_RESET";
    "VK_INCOMPLETE"; "VK_ERROR_OUT_OF_HOST_MEMORY"; "VK_ERROR_OUT_OF_DEVICE_MEMORY";
    "VK_ERROR_INITIALIZATION_FAILED"; "VK_ERROR_DEVICE_LOST"; "VK_ERROR_MEMORY_MAP_FAILED";
    "VK_ERROR_LAYER_NOT_PRESENT"; "VK_ERROR_EXTENSION_NOT_PRESENT";
    "VK_ERROR_FEATURE_NOT_PRESENT"; "VK_ERROR_INCOMPATIBLE_DRIVER";
    "VK_ERROR_TOO_MANY_OBJECTS"; "VK_ERROR_FORMAT_NOT_SUPPORTED";
    "VK_ERROR_SURFACE_LOST_KHR"; "VK_ERROR_NATIVE_WINDOW_IN_USE_KHR"; "VK_SUBOPTIMAL_KHR";
    "VK_ERROR_OUT_OF_DATE_KHR"; "VK_ERROR_INCOMPATIBLE_DISPLAY_KHR";
    "VK_ERROR_VALIDATION_FAILED_EXT"; "VK_ERROR_INVALID_SHADER_NV" ].
Proof. reflexivity. Qed.

(** The strings of the declared codes are pairwise distinct, and none is the
    string of the [default] case. *)
Lemma VkResultToString_declared_NoDup :
  NoDup (UNKNOWN_VK_RESULT :: (VkResultToString <$> declared_results)).
Proof. rewrite VkResultToString_declared. compute_done. Qed.

Lemma declared_results_NoDup : NoDup declared_results.
Proof. compute_done. Qed.

Lemma NoDup_fmap_elem_inj {A B} (f : A -> B) (l : list A) x y :
  NoDup (f <$> l) -> x ∈ l -> y ∈ l -> f x = f y -> x = y.
Proof.
  induction l as [|a l IH]; simpl; intros Hnd Hx Hy Heq.
  - by apply elem_of_nil in Hx.
  - apply NoDup_cons in Hnd as [Ha Hnd].
    apply elem_of_cons in Hx as [->|Hx]; apply elem_of_cons in Hy as [->|Hy]; auto.
    + destruct Ha. rewrite Heq. by apply list_elem_of_fmap_2.
    + destruct Ha. rewrite <- Heq. by apply list_elem_of_fmap_2.
Qed.

Lemma VkResultToString_default (res : VkResult) :
  res ∉ declared_results -> VkResultToString res = UNKNOWN_VK_RESULT.
Proof.
  intros Hres. unfold VkResultToString.
  repeat match goal with
  | |- context [(res =? ?c)%Z] =>
      destruct (Z.eqb_spec res c) as [Heq|_];
      [ exfalso; apply Hres; rewrite Heq; compute_done |]
  end.
  reflexivity.
Qed.

(** C9, as amended.  [VkResultToString] is defined on every integer.  A
    status code the [switch] names (the success code among them) has a string
    of its own, which no other named code has and which is not the string of
    the [default] case; any other integer gets that one string,
    [UNKNOWN_VK_RESULT], the enumerators of [VkResult] that the [switch] does
    not name among them. *)
Theorem VkResultToString_named_codes (res : VkResult) :
  (exists s, VkResultToString res = s)
  /\ (res ∈ declared_results ->
        VkResultToString res <> UNKNOWN_VK_RESULT
        /\ forall res', res' ∈ declared_results ->
             VkResultToString res' = VkResultToString res -> res' = res)
  /\ (res ∉ declared_results -> VkResultToString res = UNKNOWN_VK_RESULT)
  /\ VK_SUCCESS ∈ declared_results
  /\ VkResultToString VK_SUCCESS = "VK_SUCCESS"
  /\ length declared_results = 24%nat
  /\ NoDup (UNKNOWN_VK_RESULT :: (VkResultToString <$> declared_results))
  /\ Forall (fun c => VkResultToString c = UNKNOWN_VK_RESULT) unnamed_results
  /\ (res ∈ VkResult_enumerators ->
        (VkResultToString res = UNKNOWN_VK_RESULT <-> res ∈ unnamed_results)).
Proof.
  pose proof VkResultToString_declared_NoDup as Hnd.
  apply NoDup_cons in Hnd as [Hunknown Hnames].
  assert (res ∈ declared_results -> VkResultToString res <> UNKNOWN_VK_RESULT) as Hown.
  { intros Hres Heq. apply Hunknown. rewrite <- Heq. by apply list_elem_of_fmap_2. }
  assert (forall c, c ∈ unnamed_results -> c ∉ declared_results) as Hdisj.
  { intros c Hc. unfold unnamed_results in Hc.
    repeat (apply elem_of_cons in Hc as [->|Hc]; [compute_done|]).
    by apply elem_of_nil in Hc. }
  split; [by eexists|]. split; [|split; [|split; [|split; [|split; [|split; [|split]]]]]].
  - intros Hres. split; [by apply Hown|].
    intros res' Hres' Heq. by apply (NoDup_fmap_elem_inj VkResultToString declared_results).
  - apply VkResultToString_default.
  - apply list_elem_of_here.
  - reflexivity.
  - reflexivity.
  - apply VkResultToString_declared_NoDup.
  - apply Forall_forall. intros c Hc. by apply VkResultToString_default, Hdisj.
  - intros Hin. split.
    + intros Heq. apply elem_of_app in Hin as [Hd|Hu]; [|done]. by destruct (Hown Hd).
    + intros Hu. by apply VkResultToString_default, Hdisj.
Qed.

(** C9, the case the claim as stated does not survive: an enumerator of
    [VkResult] that the [switch] does not name.  [VK_ERROR_FRAGMENTED_POOL]
    has no string of its own: it gets the string of the [default] case, the
    one [VK_ERROR_UNKNOWN], another enumerator, and integers outside the
    enumeration get. *)
Lemma VkResultToString_unnamed_enumerator :
  VK_ERROR_FRAGMENTED_POOL ∈ VkResult_enumerators
  /\ VkResultToString VK_ERROR_FRAGMENTED_POOL = UNKNOWN_VK_RESULT
  /\ VK_ERROR_UNKNOWN ∈ VkResult_enumerators
  /\ VK_ERROR_UNKNOWN <> VK_ERROR_FRAGMENTED_POOL
  /\ VkResultToString VK_ERROR_UNKNOWN = VkResultToString VK_ERROR_FRAGMENTED_POOL
  /\ (12345%Z ∉ VkResult_enumerators)
  /\ VkResultToString 12345 = VkResultToString VK_ERROR_FRAGMENTED_POOL.
Proof. repeat split; try reflexivity; try discriminate; compute_done. Qed.

End ResultCodes.

(** * Further properties *)

(** ** Structure chains on any heap *)

(** On a concrete heap the chain of a structure is found by walking it. *)
Ltac walk_the_chain :=
  lazymatch goal with
  | |- chain_from _ _ ?l => apply (chain_nodes_sound (length l)); reflexivity
  end.

Section ChainAnyHeap.

Implicit Types (m : gmap Z VkBaseInStructure) (a p q head ptr : Z) (l : list Z).
Implicit Types (st : VkBaseInStructure) (fuel : nat).

Lemma set_pNext_same st : set_pNext st (pNext st) = st.
Proof. by destruct st. Qed.

Lemma set_pNext_twice st p q : set_pNext (set_pNext st p) q = set_pNext st q.
Proof. done. Qed.

(** A call on the structure that has just received the pointer. *)
Lemma AddPointerToChain_at_written fuel m a st ptr :
  deref m a = Some st ->
  AddPointerToChain (S fuel) (<[a := set_pNext st ptr]> m) a ptr
  = Done (<[a := set_pNext st ptr]> m).
Proof.
  intros Ha. destruct (deref_Some _ _ _ Ha) as [Ha0 _].
  simpl. rewrite deref_insert_eq by done. simpl.
  case_decide as Hp.
  - by rewrite insert_insert_eq, set_pNext_twice.
  - by case_decide.
Qed.

(** A call that returns leaves the structures it walked through as they
    were, the one it wrote into apart. *)
Lemma AddPointerToChain_keeps_walked fuel m a st ptr m' :
  AddPointerToChain fuel m a ptr = Done m' ->
  forall b, deref m b = Some st -> pNext st <> nullptr -> deref m' b = Some st.
Proof.
  intros Hrun b Hb Hn.
  destruct (AddPointerToChain_one_write _ _ _ _ _ Hrun) as [->|(t & stt & Ht & Hnt & ->)];
    [done|].
  rewrite deref_insert_ne; [done|]. intros ->. congruence.
Qed.

(** The same call again, on the heap the first one leaves. *)
Lemma AddPointerToChain_repeat fuel m head ptr m1 :
  AddPointerToChain fuel m head ptr = Done m1 ->
  AddPointerToChain (S fuel) m1 head ptr = Done m1.
Proof.
  revert head. induction fuel as [|fuel IH]; intros head.
  - intros Hrun. simpl in Hrun.
    destruct (deref m head) as [st|] eqn:Ha; [|discriminate].
    case_decide; [|discriminate]. injection Hrun as <-.
    by apply AddPointerToChain_at_written.
  - intros Hrun. pose proof Hrun as Hrun0. simpl in Hrun.
    destruct (deref m head) as [st|] eqn:Ha; [|discriminate].
    case_decide as Hn.
    + injection Hrun as <-. by apply AddPointerToChain_at_written.
    + pose proof (AddPointerToChain_keeps_walked _ _ _ _ _ _ Hrun0 head Ha Hn) as Ha1.
      case_decide as Hp.
      * injection Hrun as <-. simpl. rewrite Ha.
        case_decide; [done|]. by case_decide.
      * apply IH in Hrun.
        change (AddPointerToChain (S (S fuel)) m1 head ptr) with
          (match deref m1 head with
           | None => Fault
           | Some st =>
               if decide (pNext st = nullptr) then Done (<[head := set_pNext st ptr]> m1)
               else if decide (pNext st = ptr) then Done m1
               else AddPointerToChain (S fuel) m1 (pNext st) ptr
           end).
        rewrite Ha1. case_decide; [done|]. by case_decide.
Qed.

(** X1.  Whatever the heap and the pointers, a call that returns has done all
    there is to do: the same call on the heap it leaves returns that heap
    again.  (The second call may need one iteration more than the first: it
    stops at the link the first one stored.) *)
Theorem AddPointerToChain_twice fuel m head ptr m1 :
  AddPointerToChain fuel m head ptr = Done m1 ->
  AddPointerToChain (S fuel) m1 head ptr = Done m1.
Proof. apply AddPointerToChain_repeat. Qed.

Lemma AddPointerToChain_twice_witness :
  AddPointerToChain 1 self_linked 16 16 = Done self_linked.
Proof.
  apply (AddPointerToChain_twice 0 lone_struct 16 16 self_linked).
  reflexivity.
Defined.

(** X2.  Whatever the heap, a call that returns neither adds nor removes a
    structure, keeps the type tag and the members of every structure, and
    changes at most one [pNext], which was null and now holds the pointer. *)
Theorem AddPointerToChain_keeps_structures fuel m head ptr m' :
  AddPointerToChain fuel m head ptr = Done m' ->
  dom m' = dom m
  /\ (forall q st, m !! q = Some st ->
        exists st', m' !! q = Some st'
          /\ sType st' = sType st /\ members st' = members st
          /\ (pNext st' = pNext st \/ (pNext st = nullptr /\ pNext st' = ptr)))
  /\ (forall q1 q2, m' !! q1 <> m !! q1 -> m' !! q2 <> m !! q2 -> q1 = q2).
Proof.
  intros Hrun.
  destruct (AddPointerToChain_one_write _ _ _ _ _ Hrun) as [->|(t & stt & Ht & Hnt & ->)].
  - repeat split; [|done]. intros q st Hq. exists st. auto.
  - destruct (deref_Some _ _ _ Ht) as [_ Hlook]. repeat split.
    + apply dom_insert_lookup_L. by eexists.
    + intros q st Hq. destruct (decide (t = q)) as [->|Hne].
      * assert (stt = st) as -> by congruence.
        exists (set_pNext st ptr). rewrite lookup_insert_eq. simpl. auto 10.
      * exists st. rewrite lookup_insert_ne by done. auto.
    + intros q1 q2 H1 H2.
      destruct (decide (t = q1)) as [<-|Hne1]; [|by rewrite lookup_insert_ne in H1].
      destruct (decide (t = q2)) as [<-|Hne2]; [done|by rewrite lookup_insert_ne in H2].
Qed.

Lemma AddPointerToChain_keeps_structures_witness :
  dom self_linked = dom lone_struct.
Proof.
  apply (AddPointerToChain_keeps_structures 0 lone_struct 16 16 self_linked).
  reflexivity.
Defined.

Lemma linked_after_Done m a ptr :
  linked_after m a ptr -> exists fuel, AddPointerToChain fuel m a ptr = Done m.
Proof.
  induction 1 as [a st Ha Hn | a st p Ha Hn H IH].
  - exists 1%nat. simpl. rewrite Ha. case_decide; [done|]. by case_decide.
  - destruct IH as [fuel IH]. exists (S fuel). simpl. rewrite Ha.
    case_decide; [done|]. by case_decide.
Qed.

Lemma AddPointerToChain_Done_cases fuel m a ptr m' :
  AddPointerToChain fuel m a ptr = Done m' ->
  (linked_after m a ptr /\ m' = m)
  \/ (exists l st, chain_from m a l /\ (ptr ∉ l)
        /\ deref m (chain_tail a l) = Some st
        /\ m' = <[chain_tail a l := set_pNext st ptr]> m).
Proof.
  revert a. induction fuel as [|fuel IH]; intros a; simpl;
    destruct (deref m a) as [st|] eqn:Ha; try discriminate.
  - case_decide; [|discriminate]. intros [= <-]. right. exists [], st.
    repeat split; auto; [by apply chain_end with st|apply not_elem_of_nil].
  - case_decide as Hn.
    { intros [= <-]. right. exists [], st.
      repeat split; auto; [by apply chain_end with st|apply not_elem_of_nil]. }
    case_decide as Hp.
    { intros [= <-]. left. split; [|done]. rewrite <- Hp. by apply linked_next with (st := st). }
    intros Hrun. destruct (IH _ Hrun) as [[Hl ->]|(l & stt & Hch & Hnin & Ht & ->)].
    + left. split; [|done]. by apply linked_later with st.
    + right. exists (pNext st :: l), stt. repeat split; auto.
      * by apply chain_step.
      * by apply not_elem_of_cons.
Qed.

(** X3.  When the call returns.  On any heap, [AddPointerToChain] returns
    exactly when the pointer is linked after the head or following [pNext]
    from the head comes to a null [pNext]; in the first case it has written
    nothing, in the second it has written the pointer into the [pNext] of the
    tail.  So on a chain that runs in a circle without the pointer on it, it
    never returns. *)
Theorem AddPointerToChain_returns_iff m head ptr :
  ((exists fuel m', AddPointerToChain fuel m head ptr = Done m')
   <-> (linked_after m head ptr \/ exists l, chain_from m head l))
  /\ (forall fuel m', AddPointerToChain fuel m head ptr = Done m' ->
        (linked_after m head ptr /\ m' = m)
        \/ (exists l st, chain_from m head l /\ (ptr ∉ l)
              /\ deref m (chain_tail head l) = Some st /\ pNext st = nullptr
              /\ m' = <[chain_tail head l := set_pNext st ptr]> m)).
Proof.
  split; [split|].
  - intros (fuel & m' & Hrun).
    destruct (AddPointerToChain_Done_cases _ _ _ _ _ Hrun) as [[Hl _]|(l & st & Hch & _)];
      [by left|right; by exists l].
  - intros [Hl|[l Hch]].
    + destruct (linked_after_Done _ _ _ Hl) as [fuel Hrun]. by exists fuel, m.
    + destruct (decide (ptr ∈ l)) as [Hin|Hnin].
      * exists (length l), m. by apply AddPointerToChain_linked with l.
      * destruct (AddPointerToChain_fresh (length l) m head l ptr Hch Hnin)
          as (st & _ & _ & Hrun); [done|]. eauto.
  - intros fuel m' Hrun.
    destruct (AddPointerToChain_Done_cases _ _ _ _ _ Hrun) as [?|(l & st & Hch & Hnin & Ht & ->)];
      [by left|right].
    destruct (chain_from_tail _ _ _ Hch) as (st' & Ht' & Hn').
    assert (st' = st) as -> by congruence.
    exists l, st. done.
Qed.

(** X4.  A null pointer as the argument: on a chain the call returns the heap
    it was given (it stores null where null was). *)
Theorem AddPointerToChain_null_pointer fuel m head l :
  chain_from m head l -> (length l <= fuel)%nat ->
  AddPointerToChain fuel m head nullptr = Done m.
Proof.
  intros Hch Hf.
  destruct (AddPointerToChain_fresh fuel m head l nullptr Hch) as (st & Ht & Hn & Hrun);
    [|done|].
  - intros Hin. by destruct (chain_from_linked _ _ _ _ Hch Hin) as [? _].
  - rewrite Hrun. f_equal. rewrite <- Hn, set_pNext_same.
    apply insert_id. by apply deref_Some in Ht as [_ ?].
Qed.

Lemma AddPointerToChain_null_pointer_witness :
  AddPointerToChain 1 one_linked 16 nullptr = Done one_linked.
Proof.
  apply (AddPointerToChain_null_pointer 1 one_linked 16 [32]).
  - walk_the_chain.
  - simpl. lia.
Defined.

Lemma first_links_all l ps p : p ∈ ps -> p ∈ l ++ first_links l ps.
Proof.
  revert l. induction ps as [|q ps IH]; intros l Hp; [by apply elem_of_nil in Hp|].
  simpl. apply elem_of_cons in Hp as [->|Hp].
  - case_decide; [apply elem_of_app; by left|].
    apply elem_of_app. right. apply list_elem_of_here.
  - case_decide; [by apply IH|].
    specialize (IH (l ++ [q]) Hp). by rewrite <- app_assoc in IH.
Qed.

(** X5.  Any sequence of pointers linked onto a chain, each of them either
    linked already or a structure with a null [pNext] other than the head,
    repetitions allowed: every call returns, and the chain gains each new
    structure once, at its first arrival, in the order of arrival.  The result
    is a chain again, holds every pointer asked for, and none twice. *)
Theorem link_in_order_first_links fuel m head l ps :
  chain_from m head l ->
  (forall p, p ∈ ps ->
     p ∈ l \/ (p <> head /\ exists sp, deref m p = Some sp /\ pNext sp = nullptr)) ->
  (length l + length ps <= fuel)%nat ->
  exists m', link_in_order fuel m head ps = Done m'
    /\ chain_from m' head (l ++ first_links l ps)
    /\ NoDup (head :: l ++ first_links l ps)
    /\ (forall p, p ∈ ps -> p ∈ l ++ first_links l ps).
Proof.
  intros Hch Hps Hf.
  enough (exists m', link_in_order fuel m head ps = Done m'
            /\ chain_from m' head (l ++ first_links l ps)) as (m' & Hrun & Hch').
  { exists m'. repeat split; auto.
    - by apply (chain_from_NoDup m').
    - intros p Hp. by apply first_links_all. }
  revert m l Hch Hps Hf. induction ps as [|p ps IH]; intros m l Hch Hps Hf.
  - exists m. simpl. by rewrite app_nil_r.
  - simpl in Hf. simpl. destruct (decide (p ∈ l)) as [Hin|Hnin].
    + rewrite (AddPointerToChain_linked fuel m head l p Hch Hin) by lia.
      apply IH; [done| |lia]. intros q Hq. apply Hps. by apply list_elem_of_further.
    + destruct (Hps p) as [?|(Hne & sp & Hsp & Hn)]; [apply list_elem_of_here|done|].
      destruct (AddPointerToChain_append fuel m head l p sp Hch)
        as (st & Ht & Hnt & Hrun & Hch1); auto; [by apply not_elem_of_cons|lia|].
      rewrite Hrun.
      destruct (IH (<[chain_tail head l := set_pNext st p]> m) (l ++ [p]) Hch1)
        as (m' & Hrun' & Hch').
      * intros q Hq. destruct (decide (q ∈ l ++ [p])) as [?|Hq']; [by left|right].
        apply not_elem_of_app in Hq' as [Hql _].
        destruct (Hps q) as [?|(Hqh & sq & Hsq & Hnq)]; [by apply list_elem_of_further|done|].
        split; [done|]. exists sq. split; [|done].
        rewrite deref_insert_ne; [done|]. intros Heq.
        pose proof (chain_tail_elem head l) as Hel. rewrite Heq in Hel.
        by apply elem_of_cons in Hel as [?|?].
      * rewrite length_app. simpl. lia.
      * exists m'. split; [done|]. by rewrite <- app_assoc in Hch'.
Qed.

Lemma link_in_order_first_links_witness :
  exists m', link_in_order 5 three_structs 16 [32; 48; 32; 48; 32] = Done m'
    /\ chain_from m' 16 [32; 48].
Proof.
  destruct (link_in_order_first_links 5 three_structs 16 [] [32; 48; 32; 48; 32])
    as (m' & Hrun & Hch & _).
  - walk_the_chain.
  - intros p Hp. right.
    assert (p = 32 \/ p = 48) as [-> | ->].
    { repeat (apply elem_of_cons in Hp as [->|Hp]; [auto|]). by apply elem_of_nil in Hp. }
    + split; [discriminate|]. by exists (unlinked 1000).
    + split; [discriminate|]. by exists (unlinked 1001).
  - simpl. lia.
  - exists m'. split; assumption.
Defined.

Lemma chain_from_insert_other m a l t st :
  chain_from m a l -> t ∉ a :: l -> chain_from (<[t := st]> m) a l.
Proof.
  induction 1 as [a st0 Ha Hn | a st0 l Ha Hn H IH]; intros Ht.
  - apply chain_end with st0; [|done]. rewrite deref_insert_ne; [done|].
    intros ->. apply Ht, list_elem_of_here.
  - apply not_elem_of_cons in Ht as [Hta Ht].
    apply chain_step; [|done|by apply IH]. by rewrite deref_insert_ne.
Qed.

Lemma chain_from_link_chain m a l x lx st :
  chain_from m a l -> deref m (chain_tail a l) = Some st -> x <> nullptr ->
  chain_from (<[chain_tail a l := set_pNext st x]> m) x lx ->
  chain_from (<[chain_tail a l := set_pNext st x]> m) a (l ++ x :: lx).
Proof.
  induction 1 as [a st0 Ha Hn0 | a st0 l Ha Hn0 H IH]; intros Ht Hx0 Hx'; simpl in *.
  - destruct (deref_Some _ _ _ Ha) as [Ha0 _].
    change (x :: lx) with (pNext (set_pNext st x) :: lx).
    apply chain_step; [by apply deref_insert_eq|done|done].
  - apply chain_step; [|done|by apply IH].
    rewrite deref_insert_ne; [done|]. intros Heq.
    apply (chain_from_head_notin m a (pNext st0 :: l)); [by apply chain_step|].
    rewrite <- Heq. apply chain_tail_elem.
Qed.

(** X6.  A pointer to a structure that has a chain of its own, apart from the
    chain of the head: the call links the structure and its chain comes along,
    after the structures linked before. *)
Theorem AddPointerToChain_brings_chain fuel m head l x lx :
  chain_from m head l -> chain_from m x lx ->
  (forall q, q ∈ x :: lx -> q ∉ head :: l) ->
  (length l <= fuel)%nat ->
  exists m', AddPointerToChain fuel m head x = Done m'
    /\ chain_from m' head (l ++ x :: lx)
    /\ chain_nodes (fuel + S (length lx)) m' head = Some (l ++ x :: lx).
Proof.
  intros Hch Hx Hdisj Hf.
  destruct (AddPointerToChain_fresh fuel m head l x Hch) as (st & Ht & Hn & Hrun); [|done|].
  { intros Hin. apply (Hdisj x); [apply list_elem_of_here|by apply list_elem_of_further]. }
  exists (<[chain_tail head l := set_pNext st x]> m).
  assert (chain_from (<[chain_tail head l := set_pNext st x]> m) head (l ++ x :: lx)) as Hnew.
  { destruct (chain_from_head _ _ _ Hx) as [Hx0 _].
    apply chain_from_link_chain; auto.
    apply chain_from_insert_other; [done|]. intros Hin.
    by apply (Hdisj _ Hin), chain_tail_elem. }
  repeat split; auto.
  apply chain_nodes_complete; [done|]. rewrite length_app. simpl. lia.
Qed.

Lemma AddPointerToChain_brings_chain_witness :
  exists m', AddPointerToChain 0 (<[64 := unlinked 7]> one_linked) 64 16 = Done m'
    /\ chain_from m' 64 [16; 32].
Proof.
  destruct (AddPointerToChain_brings_chain 0 (<[64 := unlinked 7]> one_linked) 64 [] 16 [32])
    as (m' & Hrun & Hch & _).
  - walk_the_chain.
  - walk_the_chain.
  - intros q Hq [=->]%list_elem_of_singleton.
    apply elem_of_cons in Hq as [[=]|[=]%list_elem_of_singleton].
  - simpl. lia.
  - exists m'. split; assumption.
Defined.



(** On a chain, the structure with a null [pNext] is the tail. *)
Lemma chain_from_null_is_tail m a l q st :
  chain_from m a l -> q ∈ a :: l -> deref m q = Some st -> pNext st = nullptr ->
  q = chain_tail a l.
Proof.
  induction 1 as [a st0 Ha Hn0 | a st0 l Ha Hn0 H IH]; intros Hq Hst Hn; simpl.
  - by apply list_elem_of_singleton in Hq.
  - apply elem_of_cons in Hq as [->|Hq]; [congruence|]. by apply IH.
Qed.

(** X12.  Two heads.  Linking a new structure onto one head writes into the
    tail of that head's chain; a second head whose chain runs into that tail
    gains the structure as well, and a second head whose chain does not hold
    that tail keeps the chain it had. *)
Theorem AddPointerToChain_two_heads fuel m h1 l1 h2 l2 x sx :
  chain_from m h1 l1 -> chain_from m h2 l2 ->
  x ∉ h1 :: l1 -> x ∉ h2 :: l2 ->
  deref m x = Some sx -> pNext sx = nullptr -> (length l1 <= fuel)%nat ->
  exists m', AddPointerToChain fuel m h1 x = Done m'
    /\ chain_from m' h1 (l1 ++ [x])
    /\ (chain_tail h1 l1 ∈ h2 :: l2 -> chain_from m' h2 (l2 ++ [x]))
    /\ (chain_tail h1 l1 ∉ h2 :: l2 -> chain_from m' h2 l2).
Proof.
  intros H1 H2 Hx1 Hx2 Hsx Hn Hf.
  destruct (AddPointerToChain_append fuel m h1 l1 x sx H1 Hx1 Hsx Hn Hf)
    as (st & Ht & Hnt & Hrun & Hch).
  exists (<[chain_tail h1 l1 := set_pNext st x]> m). repeat split; auto.
  - intros Hin.
    rewrite (chain_from_null_is_tail m h2 l2 _ st H2 Hin Ht Hnt) in Ht |- *.
    by apply chain_from_link with sx.
  - intros Hnin. by apply chain_from_insert_other.
Qed.

Lemma AddPointerToChain_two_heads_witness :
  exists m', AddPointerToChain 1 (<[64 := set_pNext (unlinked 7) 32]> one_linked) 16 48
             = Done m'
    /\ chain_from m' 16 [32; 48]
    /\ chain_from m' 64 [32; 48].
Proof.
  destruct (AddPointerToChain_two_heads 1 (<[64 := set_pNext (unlinked 7) 32]> one_linked)
              16 [32] 64 [32] 48 (unlinked 1001))
    as (m' & Hrun & Hch1 & Hshared & _).
  - walk_the_chain.
  - walk_the_chain.
  - intros [[=]|[=]%list_elem_of_singleton]%elem_of_cons.
  - intros [[=]|[=]%list_elem_of_singleton]%elem_of_cons.
  - reflexivity.
  - reflexivity.
  - simpl. lia.
  - exists m'. repeat split; [exact Hrun|exact Hch1|].
    apply Hshared. simpl. apply list_elem_of_further, list_elem_of_here.
Defined.

End ChainAnyHeap.

(** ** Sequences of teardowns and of barriers *)

Section Sequences.

Lemma after_after w t1 t2 : after (after w t1) t2 = after w (t1 ++ t2).
Proof. unfold after. simpl. by rewrite app_assoc. Qed.

Lemma ReleaseAll_empty_slots (slots : list (Category * Z)) w :
  ReleaseAll ((fun s => (fst s, VK_NULL_HANDLE)) <$> slots) w
  = ((fun s => (fst s, VK_NULL_HANDLE)) <$> slots, w).
Proof.
  revert w. induction slots as [|[c h] slots IH]; intros w; [done|].
  simpl. unfold bind. rewrite Release_empty, IH. done.
Qed.

(** X8.  Teardown of several slots: every slot is left holding
    [VK_NULL_HANDLE]; the calls issued are, in the order of the slots, one
    for each live slot and none for an empty one, each for the category and
    the handle of its slot, so as many [vkDestroy*] calls as there are live
    slots of the nine destroyed categories and as many pool frees as there are
    live descriptor set slots.  Tearing the same slots down again issues
    nothing. *)
Theorem ReleaseAll_calls (slots : list (Category * Z)) (w : World) :
  exists new,
    ReleaseAll slots w = ((fun s => (fst s, VK_NULL_HANDLE)) <$> slots, after w new)
    /\ disposes <$> new = Some <$> List.filter live slots
    /\ destroy_calls new
       = length (List.filter (fun s => live s && negb (pooled (fst s))) slots)
    /\ pool_frees new
       = length (List.filter (fun s => live s && pooled (fst s)) slots)
    /\ ReleaseAll ((fun s => (fst s, VK_NULL_HANDLE)) <$> slots) (after w new)
       = ((fun s => (fst s, VK_NULL_HANDLE)) <$> slots, after w new).
Proof.
  enough (exists new,
    ReleaseAll slots w = ((fun s => (fst s, VK_NULL_HANDLE)) <$> slots, after w new)
    /\ disposes <$> new = Some <$> List.filter live slots
    /\ destroy_calls new
       = length (List.filter (fun s => live s && negb (pooled (fst s))) slots)
    /\ pool_frees new
       = length (List.filter (fun s => live s && pooled (fst s)) slots))
    as (new & H1 & H2 & H3 & H4).
  { exists new. repeat split; auto. apply ReleaseAll_empty_slots. }
  revert w. induction slots as [|[c h] slots IH]; intros w.
  - exists []. simpl. rewrite after_nil. done.
  - simpl. unfold bind.
    destruct (decide (h = VK_NULL_HANDLE)) as [->|Hlive].
    + rewrite Release_empty. destruct (IH w) as (new & -> & H2 & H3 & H4).
      exists new. change (live (c, VK_NULL_HANDLE)) with false. simpl. done.
    + destruct (Release_live c h w Hlive) as (e & -> & Hd & Hn & Hp & _).
      assert (live (c, h) = true) as -> by (by apply live_test).
      destruct (IH (after w [e])) as (new & -> & H2 & H3 & H4).
      exists (e :: new). rewrite after_after. simpl. repeat split.
      * rewrite Hd. f_equal. exact H2.
      * change (e :: new) with ([e] ++ new).
        rewrite destroy_calls_app, destroy_calls_one, Hn, H3.
        by destruct (pooled c).
      * change (e :: new) with ([e] ++ new).
        rewrite pool_frees_app, pool_frees_one, Hp, H4.
        by destruct (pooled c).
Qed.

(** X9.  Several buffer barriers: each call of [BufferMemoryBarrier] records
    a [vkCmdPipelineBarrier] of its own, in the order of the calls, carrying
    the one descriptor of that call; nothing is merged or dropped, also when
    two calls have the same arguments, and no handle is disposed of. *)
Theorem barrier_calls_trace (l : list BarrierArgs) (w : World) :
  barrier_calls l w = (tt, after w (barrier_record <$> l))
  /\ length (trace (snd (barrier_calls l w))) = (length (trace w) + length l)%nat
  /\ destroy_calls (trace (snd (barrier_calls l w))) = destroy_calls (trace w)
  /\ pool_frees (trace (snd (barrier_calls l w))) = pool_frees (trace w)
  /\ Forall (fun c => disposes c = None) (barrier_record <$> l).
Proof.
  assert (barrier_calls l w = (tt, after w (barrier_record <$> l))) as Hrun.
  { revert w. induction l as [|a l IH]; intros w; cbn [barrier_calls fmap list_fmap].
    - unfold ret. by rewrite after_nil.
    - unfold bind.
      change (barrier_call a w) with (tt, after w [barrier_record a]).
      cbv beta iota. by rewrite IH, after_after. }
  assert (destroy_calls (barrier_record <$> l) = 0%nat
          /\ pool_frees (barrier_record <$> l) = 0%nat
          /\ Forall (fun c => disposes c = None) (barrier_record <$> l)) as (Hd & Hp & Hn).
  { clear Hrun. induction l as [|a l IH]; [by repeat split|].
    destruct IH as (IHd & IHp & IHn).
    unfold destroy_calls, pool_frees in *. simpl.
    repeat split; auto. }
  rewrite Hrun. simpl. repeat split; auto.
  - by rewrite length_app, length_fmap.
  - rewrite destroy_calls_app. lia.
  - rewrite pool_frees_app. lia.
Qed.

End Sequences.

(** ** Result codes and the log line *)

Section ResultLog.

Local Open Scope string_scope.

Local Ltac decide_prefix :=
  split;
  [ intros Hp; first [ discriminate Hp | split; [compute_done | reflexivity] ]
  | intros [_ Hlt]; first [ reflexivity | discriminate Hlt ] ].

(** X10.  The string of a result code starts with [VK_ERROR_] exactly when the
    code is one of the declared codes and is negative: the successes and the
    informational codes, which are not negative, and every code the file does
    not name, never read as an error name. *)
Theorem VkResultToString_error_prefix (res : VkResult) :
  Stdlib.Strings.String.prefix "VK_ERROR_" (VkResultToString res) = true
  <-> (res ∈ declared_results /\ (res < 0)%Z).
Proof.
  destruct (decide (res ∈ declared_results)) as [Hin|Hnin].
  - unfold declared_results in Hin.
    repeat (apply elem_of_cons in Hin as [->|Hin]; [decide_prefix|]).
    by apply elem_of_nil in Hin.
  - rewrite (VkResultToString_default res Hnin). split; [discriminate|by intros [? _]].
Qed.




End ResultLog.
